(** * go-batch: batch assembly and distribution pipeline

    A shallow embedding of [batch/batch.go] (the [Batch] orchestrator:
    [NewBatch], [ReadItems], [Stop], [Close]) and of [consumer.go] (the
    [BatchConsumer]: [StartConsumer], [ConsumerBatch], [WorkerFunc]).

    Goroutines are program counters in an explicit state, channels are
    queues with a capacity, and one execution is a schedule: the list of
    the atomic steps taken, in order.  A step that cannot be taken (a
    receive on an empty channel, a send on a full one) yields [None]. *)

From stdpp Require Import base numbers option list strings sorting.

Open Scope Z_scope.

(** ** Data *)

(** [interface{}]: the nil interface or some value. *)
Inductive Payload :=
| PNil
| PVal (v : string).

(** [BatchItems], as [ReadItems] builds it. *)
Record BatchItems := { Id : Z; Item : Payload }.

(** [[]BatchItems] *)
Abbreviation batch := (list BatchItems).

Global Instance Payload_eq_dec : EqDecision Payload.
Proof. solve_decision. Defined.

Global Instance BatchItems_eq_dec : EqDecision BatchItems.
Proof. solve_decision. Defined.

Definition ids (b : batch) : list Z := Id <$> b.
Definition payload (x : BatchItems) : Payload := Item x.
Definition id_of (x : BatchItems) : Z := Id x.

(** Two batches share no item identifier. *)
Definition ids_disjoint (b1 b2 : batch) : Prop :=
  ∀ x y, x ∈ b1 → y ∈ b2 → Id x ≠ Id y.

(** Go's [int] on a 64-bit platform. *)
Definition wrap_int (z : Z) : Z := (z + 2^63) `mod` 2^64 - 2^63.
Global Arguments wrap_int : simpl never.

(** ** Channels

    A buffered channel is the queue of the values sent and not yet
    received; its capacity is fixed by [make].  An unbuffered channel
    holds nothing: a send and the matching receive are one step. *)

Definition has_room {A} (cap : nat) (q : list A) : bool :=
  bool_decide (length q < cap)%nat.

Definition DefaultWorkerPool : nat := 10.

(** ** The consumer ([consumer.go]) *)

Module Consumer.

(** [ConsumerBatch]: at the [select]; holding a batch received from
    [ConsumerCh] and sending it on [BatchWorkerCh]; returned. *)
Inductive routing_pc :=
| CBNotStarted
| CBSelect
| CBForward (b : batch)
| CBReturned.

(** [WorkerFunc]: at the [range]; holding a batch, about to start
    [GetBatchSupply]; at the [select] on [BatchSupplyCh]; sending the
    batch on the response channel it received; returned. *)
Inductive worker_pc :=
| WRange
| WClaimed (b : batch)
| WSelect (b : batch)
| WOffer (b : batch) (slot : nat)
| WDone.

(** Modelled from the spec: [GetBatchSupply], which [WorkerFunc] starts
    with [go], is not among the sources.  Following the description of
    [BatchSupply] in [consumer.go] and of the pull operation in the
    spec, one call requests a batch by sending its own response channel
    on [BatchSupplyCh], receives exactly one batch on that channel, and
    passes it on to [ClientSupplyCh].  The response channel of call [r]
    is named by [r]; the states are: before the request; waiting on the
    response channel; holding the batch received; done. *)
Inductive supply_pc :=
| GSNew
| GSWait
| GSGot (b : batch)
| GSDone (b : batch).

(** [StartConsumer]: before its first statement; at [<-c.TerminateCh];
    before [cancel()]; before [os.Exit(0)]; before
    [c.Workerline.Wait()]; returned. *)
Inductive start_pc :=
| SCInit
| SCWaitSignal
| SCCancel
| SCExit
| SCWait
| SCReturned.

Inductive signal := SIGINT | SIGTERM.

Record BatchSupply := {
  BatchSupplyCh : list nat;        (* chan chan []BatchItems, capacity 100 *)
  ClientSupplyCh : list batch;     (* capacity 1 *)
}.

Record BatchConsumer := {
  ConsumerCh : list batch;         (* capacity 1 *)
  BatchWorkerCh : list batch;      (* capacity DefaultWorkerPool *)
  BatchWorkerCh_closed : bool;
  Supply : BatchSupply;
  Workerline : nat;                (* sync.WaitGroup counter *)
  TerminateCh : list signal;       (* capacity 1 *)
  Quit : list bool;                (* capacity 1 *)
  (* goroutines *)
  ctx_done : bool;
  starter : start_pc;
  routing : routing_pc;
  workers : list worker_pc;
  supplies : list supply_pc;
  (* what the client has read from ClientSupplyCh *)
  client : list batch;
  (* os.Exit *)
  exited : option Z;
}.

Definition NewBatchSupply : BatchSupply :=
  {| BatchSupplyCh := []; ClientSupplyCh := [] |}.

Definition NewBatchConsumer : BatchConsumer :=
  {| ConsumerCh := []; BatchWorkerCh := []; BatchWorkerCh_closed := false;
     Supply := NewBatchSupply; Workerline := 0%nat;
     TerminateCh := []; Quit := [];
     ctx_done := false; starter := SCInit; routing := CBNotStarted;
     workers := []; supplies := []; client := []; exited := None |}.

(** Field updates. *)
Definition set_ConsumerCh v c :=
  {| ConsumerCh := v; BatchWorkerCh := BatchWorkerCh c;
     BatchWorkerCh_closed := BatchWorkerCh_closed c; Supply := Supply c;
     Workerline := Workerline c; TerminateCh := TerminateCh c; Quit := Quit c;
     ctx_done := ctx_done c; starter := starter c; routing := routing c;
     workers := workers c; supplies := supplies c; client := client c;
     exited := exited c |}.
Definition set_BatchWorkerCh v c :=
  {| ConsumerCh := ConsumerCh c; BatchWorkerCh := v;
     BatchWorkerCh_closed := BatchWorkerCh_closed c; Supply := Supply c;
     Workerline := Workerline c; TerminateCh := TerminateCh c; Quit := Quit c;
     ctx_done := ctx_done c; starter := starter c; routing := routing c;
     workers := workers c; supplies := supplies c; client := client c;
     exited := exited c |}.
Definition close_BatchWorkerCh c :=
  {| ConsumerCh := ConsumerCh c; BatchWorkerCh := BatchWorkerCh c;
     BatchWorkerCh_closed := true; Supply := Supply c;
     Workerline := Workerline c; TerminateCh := TerminateCh c; Quit := Quit c;
     ctx_done := ctx_done c; starter := starter c; routing := routing c;
     workers := workers c; supplies := supplies c; client := client c;
     exited := exited c |}.
Definition set_Supply v c :=
  {| ConsumerCh := ConsumerCh c; BatchWorkerCh := BatchWorkerCh c;
     BatchWorkerCh_closed := BatchWorkerCh_closed c; Supply := v;
     Workerline := Workerline c; TerminateCh := TerminateCh c; Quit := Quit c;
     ctx_done := ctx_done c; starter := starter c; routing := routing c;
     workers := workers c; supplies := supplies c; client := client c;
     exited := exited c |}.
Definition set_Workerline v c :=
  {| ConsumerCh := ConsumerCh c; BatchWorkerCh := BatchWorkerCh c;
     BatchWorkerCh_closed := BatchWorkerCh_closed c; Supply := Supply c;
     Workerline := v; TerminateCh := TerminateCh c; Quit := Quit c;
     ctx_done := ctx_done c; starter := starter c; routing := routing c;
     workers := workers c; supplies := supplies c; client := client c;
     exited := exited c |}.
Definition set_TerminateCh v c :=
  {| ConsumerCh := ConsumerCh c; BatchWorkerCh := BatchWorkerCh c;
     BatchWorkerCh_closed := BatchWorkerCh_closed c; Supply := Supply c;
     Workerline := Workerline c; TerminateCh := v; Quit := Quit c;
     ctx_done := ctx_done c; starter := starter c; routing := routing c;
     workers := workers c; supplies := supplies c; client := client c;
     exited := exited c |}.
Definition set_Quit v c :=
  {| ConsumerCh := ConsumerCh c; BatchWorkerCh := BatchWorkerCh c;
     BatchWorkerCh_closed := BatchWorkerCh_closed c; Supply := Supply c;
     Workerline := Workerline c; TerminateCh := TerminateCh c; Quit := v;
     ctx_done := ctx_done c; starter := starter c; routing := routing c;
     workers := workers c; supplies := supplies c; client := client c;
     exited := exited c |}.
Definition set_ctx_done v c :=
  {| ConsumerCh := ConsumerCh c; BatchWorkerCh := BatchWorkerCh c;
     BatchWorkerCh_closed := BatchWorkerCh_closed c; Supply := Supply c;
     Workerline := Workerline c; TerminateCh := TerminateCh c; Quit := Quit c;
     ctx_done := v; starter := starter c; routing := routing c;
     workers := workers c; supplies := supplies c; client := client c;
     exited := exited c |}.
Definition set_starter v c :=
  {| ConsumerCh := ConsumerCh c; BatchWorkerCh := BatchWorkerCh c;
     BatchWorkerCh_closed := BatchWorkerCh_closed c; Supply := Supply c;
     Workerline := Workerline c; TerminateCh := TerminateCh c; Quit := Quit c;
     ctx_done := ctx_done c; starter := v; routing := routing c;
     workers := workers c; supplies := supplies c; client := client c;
     exited := exited c |}.
Definition set_routing v c :=
  {| ConsumerCh := ConsumerCh c; BatchWorkerCh := BatchWorkerCh c;
     BatchWorkerCh_closed := BatchWorkerCh_closed c; Supply := Supply c;
     Workerline := Workerline c; TerminateCh := TerminateCh c; Quit := Quit c;
     ctx_done := ctx_done c; starter := starter c; routing := v;
     workers := workers c; supplies := supplies c; client := client c;
     exited := exited c |}.
Definition set_workers v c :=
  {| ConsumerCh := ConsumerCh c; BatchWorkerCh := BatchWorkerCh c;
     BatchWorkerCh_closed := BatchWorkerCh_closed c; Supply := Supply c;
     Workerline := Workerline c; TerminateCh := TerminateCh c; Quit := Quit c;
     ctx_done := ctx_done c; starter := starter c; routing := routing c;
     workers := v; supplies := supplies c; client := client c;
     exited := exited c |}.
Definition set_supplies v c :=
  {| ConsumerCh := ConsumerCh c; BatchWorkerCh := BatchWorkerCh c;
     BatchWorkerCh_closed := BatchWorkerCh_closed c; Supply := Supply c;
     Workerline := Workerline c; TerminateCh := TerminateCh c; Quit := Quit c;
     ctx_done := ctx_done c; starter := starter c; routing := routing c;
     workers := workers c; supplies := v; client := client c;
     exited := exited c |}.
Definition set_client v c :=
  {| ConsumerCh := ConsumerCh c; BatchWorkerCh := BatchWorkerCh c;
     BatchWorkerCh_closed := BatchWorkerCh_closed c; Supply := Supply c;
     Workerline := Workerline c; TerminateCh := TerminateCh c; Quit := Quit c;
     ctx_done := ctx_done c; starter := starter c; routing := routing c;
     workers := workers c; supplies := supplies c; client := v;
     exited := exited c |}.
Definition set_exited v c :=
  {| ConsumerCh := ConsumerCh c; BatchWorkerCh := BatchWorkerCh c;
     BatchWorkerCh_closed := BatchWorkerCh_closed c; Supply := Supply c;
     Workerline := Workerline c; TerminateCh := TerminateCh c; Quit := Quit c;
     ctx_done := ctx_done c; starter := starter c; routing := routing c;
     workers := workers c; supplies := supplies c; client := client c;
     exited := v |}.
Definition set_BatchSupplyCh v c :=
  set_Supply {| BatchSupplyCh := v;
                ClientSupplyCh := ClientSupplyCh (Supply c) |} c.
Definition set_ClientSupplyCh v c :=
  set_Supply {| BatchSupplyCh := BatchSupplyCh (Supply c);
                ClientSupplyCh := v |} c.

(** The atomic steps of the consumer's goroutines, and of its
    environment: the producer calling [ConsumerFunc],
    [Batch.StopConsumer], the operating system raising a signal, the
    client reading [ClientSupplyCh]. *)
Inductive action :=
| ConsumerFunc (items : batch)     (* c.ConsumerCh <- items *)
| StopConsumer                     (* b.Consumer.Quit <- true *)
| Signal (s : signal)              (* delivery on TerminateCh *)
| ClientRecv                       (* <-c.Supply.ClientSupplyCh *)
| StartConsumer                    (* lines 90-99 *)
| StartTerminate                   (* <-c.TerminateCh *)
| StartCancel                      (* cancel() *)
| StartExit                        (* os.Exit(0) *)
| StartWait                        (* c.Workerline.Wait() *)
| RouteRecv                        (* batchItems := <-c.ConsumerCh *)
| RouteForward                     (* c.BatchWorkerCh <- batchItems *)
| RouteCancel                      (* <-ctx.Done(): close, return *)
| RouteQuit                        (* <-c.Quit: close, return *)
| WorkerRecv (i : nat)             (* batch := range c.BatchWorkerCh *)
| WorkerExit (i : nat)             (* range ends; Workerline.Done() *)
| WorkerSpawn (i : nat)            (* go c.GetBatchSupply() *)
| WorkerTake (i : nat)             (* supplyCh := <-c.Supply.BatchSupplyCh *)
| WorkerOffer (i : nat)            (* supplyCh <- batch *)
| SupplyAdvertise (r : nat)        (* c.Supply.BatchSupplyCh <- supplyCh *)
| SupplyDeliver (r : nat).         (* c.Supply.ClientSupplyCh <- supply *)

(** Modelled from the spec: the two sends of [GetBatchSupply] (see
    [supply_pc]); its receive is the other half of [WorkerOffer]. *)
Definition GetBatchSupply_request (r : nat) (c : BatchConsumer) : option BatchConsumer :=
  match supplies c !! r with
  | Some GSNew =>
      if has_room 100 (BatchSupplyCh (Supply c))
      then Some (set_supplies (<[r:=GSWait]> (supplies c))
                (set_BatchSupplyCh (BatchSupplyCh (Supply c) ++ [r]) c))
      else None
  | _ => None
  end.
Definition GetBatchSupply_deliver (r : nat) (c : BatchConsumer) : option BatchConsumer :=
  match supplies c !! r with
  | Some (GSGot b) =>
      if has_room 1 (ClientSupplyCh (Supply c))
      then Some (set_supplies (<[r:=GSDone b]> (supplies c))
                (set_ClientSupplyCh (ClientSupplyCh (Supply c) ++ [b]) c))
      else None
  | _ => None
  end.

(** One step.  [StartConsumer] runs its statements up to
    [signal.Notify] as a single step: spawning a goroutine only adds a
    thread, so every interleaving with the goroutines it spawns is also
    obtained by letting them move afterwards.  Nothing moves once the
    process has exited.

    [RouteForward] never meets a closed [BatchWorkerCh]: the routing
    loop is the only goroutine that closes it, and it returns at once. *)
Definition step (a : action) (c : BatchConsumer) : option BatchConsumer :=
  if exited c is Some _ then None else
  match a with
  | ConsumerFunc items =>
      if has_room 1 (ConsumerCh c)
      then Some (set_ConsumerCh (ConsumerCh c ++ [items]) c) else None
  | StopConsumer =>
      if has_room 1 (Quit c)
      then Some (set_Quit (Quit c ++ [true]) c) else None
  | Signal s =>
      match starter c with
      | SCInit => None
      | _ => Some (if has_room 1 (TerminateCh c)
                   then set_TerminateCh (TerminateCh c ++ [s]) c else c)
      end
  | ClientRecv =>
      match ClientSupplyCh (Supply c) with
      | b :: q => Some (set_client (client c ++ [b]) (set_ClientSupplyCh q c))
      | [] => None
      end
  | StartConsumer =>
      match starter c, routing c with
      | SCInit, CBNotStarted =>
          Some (set_starter SCWaitSignal
               (set_workers (workers c ++ replicate DefaultWorkerPool WRange)
               (set_Workerline (Workerline c + DefaultWorkerPool)%nat
               (set_routing CBSelect c))))
      | _, _ => None
      end
  | StartTerminate =>
      match starter c, TerminateCh c with
      | SCWaitSignal, _ :: q => Some (set_starter SCCancel (set_TerminateCh q c))
      | _, _ => None
      end
  | StartCancel =>
      match starter c with
      | SCCancel => Some (set_starter SCExit (set_ctx_done true c))
      | _ => None
      end
  | StartExit =>
      match starter c with
      | SCExit => Some (set_exited (Some 0) c)
      | _ => None
      end
  | StartWait =>
      match starter c, Workerline c with
      | SCWait, O => Some (set_starter SCReturned c)
      | _, _ => None
      end
  | RouteRecv =>
      match routing c, ConsumerCh c with
      | CBSelect, b :: q => Some (set_routing (CBForward b) (set_ConsumerCh q c))
      | _, _ => None
      end
  | RouteForward =>
      match routing c with
      | CBForward b =>
          if has_room DefaultWorkerPool (BatchWorkerCh c)
          then Some (set_routing CBSelect
                    (set_BatchWorkerCh (BatchWorkerCh c ++ [b]) c))
          else None
      | _ => None
      end
  | RouteCancel =>
      match routing c with
      | CBSelect =>
          if ctx_done c
          then Some (set_routing CBReturned (close_BatchWorkerCh c)) else None
      | _ => None
      end
  | RouteQuit =>
      match routing c, Quit c with
      | CBSelect, _ :: q =>
          Some (set_routing CBReturned (close_BatchWorkerCh (set_Quit q c)))
      | _, _ => None
      end
  | WorkerRecv i =>
      match workers c !! i, BatchWorkerCh c with
      | Some WRange, b :: q =>
          Some (set_workers (<[i:=WClaimed b]> (workers c))
               (set_BatchWorkerCh q c))
      | _, _ => None
      end
  | WorkerExit i =>
      match workers c !! i, BatchWorkerCh c with
      | Some WRange, [] =>
          if BatchWorkerCh_closed c
          then Some (set_workers (<[i:=WDone]> (workers c))
                    (set_Workerline (pred (Workerline c)) c))
          else None
      | _, _ => None
      end
  | WorkerSpawn i =>
      match workers c !! i with
      | Some (WClaimed b) =>
          Some (set_workers (<[i:=WSelect b]> (workers c))
               (set_supplies (supplies c ++ [GSNew]) c))
      | _ => None
      end
  | WorkerTake i =>
      match workers c !! i, BatchSupplyCh (Supply c) with
      | Some (WSelect b), s :: q =>
          Some (set_workers (<[i:=WOffer b s]> (workers c))
               (set_BatchSupplyCh q c))
      | _, _ => None
      end
  | WorkerOffer i =>
      match workers c !! i with
      | Some (WOffer b s) =>
          match supplies c !! s with
          | Some GSWait =>
              Some (set_workers (<[i:=WRange]> (workers c))
                   (set_supplies (<[s:=GSGot b]> (supplies c)) c))
          | _ => None
          end
      | _ => None
      end
  | SupplyAdvertise r => GetBatchSupply_request r c
  | SupplyDeliver r => GetBatchSupply_deliver r c
  end.

(** A schedule, run from [c]; [None] when some step of it cannot be
    taken. *)
Fixpoint exec (sched : list action) (c : BatchConsumer) : option BatchConsumer :=
  match sched with
  | [] => Some c
  | a :: sched' => c' ← step a c; exec sched' c'
  end.

(** The batches the producer handed over in [sched]. *)
Definition accepted_by (a : action) : list batch :=
  match a with ConsumerFunc items => [items] | _ => [] end.
Definition accepted (sched : list action) : list batch :=
  sched ≫= accepted_by.

(** Where a batch can be inside the consumer. *)
Definition routing_held (c : BatchConsumer) : list batch :=
  match routing c with CBForward b => [b] | _ => [] end.
Definition worker_held (w : worker_pc) : list batch :=
  match w with WClaimed b | WSelect b | WOffer b _ => [b] | _ => [] end.
(** The batch a [GetBatchSupply] call has received. *)
Definition supply_got (g : supply_pc) : list batch :=
  match g with GSGot b | GSDone b => [b] | _ => [] end.
Definition supplied (c : BatchConsumer) : list batch :=
  supplies c ≫= supply_got.
Definition in_flight (c : BatchConsumer) : list batch :=
  ConsumerCh c ++ routing_held c ++ BatchWorkerCh c
  ++ (workers c ≫= worker_held).

(** Every batch the consumer holds or has passed to the client. *)
Definition everywhere (c : BatchConsumer) : list batch :=
  in_flight c ++ supplied c ++ ClientSupplyCh (Supply c) ++ client c.

(** The routing loop has returned and no batch is past it. *)
Record nothing_downstream (c : BatchConsumer) : Prop := {
  nd_routing : routing c = CBReturned;
  nd_worker_ch : BatchWorkerCh c = [];
  nd_workers : Forall (λ w, worker_held w = []) (workers c);
  nd_supplies : Forall (λ g, supply_got g = []) (supplies c);
  nd_client_ch : ClientSupplyCh (Supply c) = [];
  nd_client : client c = [];
}.

(** What holds of [StartConsumer] in every state the consumer
    reaches. *)
Record starter_inv (c : BatchConsumer) : Prop := {
  si_not_wait : starter c ≠ SCWait;
  si_not_returned : starter c ≠ SCReturned;
  si_exit : starter c = SCExit → ctx_done c = true;
  si_exited : ∀ code, exited c = Some code →
                code = 0 ∧ starter c = SCExit;
  si_workers : length (workers c) =
                 match starter c with SCInit => 0%nat | _ => DefaultWorkerPool end;
}.

(** *** Further notions *)

(** The buffered channels hold no more than [make] gave them room
    for. *)
Record within_capacity (c : BatchConsumer) : Prop := {
  wc_consumer : (length (ConsumerCh c) ≤ 1)%nat;
  wc_worker : (length (BatchWorkerCh c) ≤ DefaultWorkerPool)%nat;
  wc_supply : (length (BatchSupplyCh (Supply c)) ≤ 100)%nat;
  wc_client : (length (ClientSupplyCh (Supply c)) ≤ 1)%nat;
  wc_quit : (length (Quit c) ≤ 1)%nat;
  wc_terminate : (length (TerminateCh c) ≤ 1)%nat;
}.

(** The workers that have not returned. *)
Definition running (w : worker_pc) : nat :=
  match w with WDone => 0 | _ => 1 end.
Definition running_workers (c : BatchConsumer) : nat :=
  sum_list_with running (workers c).

(** The batch a [GetBatchSupply] call has received and not yet passed
    on; and every place a batch can be, each counted once. *)
Definition supply_holds (g : supply_pc) : list batch :=
  match g with GSGot b => [b] | _ => [] end.
Definition located (c : BatchConsumer) : list batch :=
  in_flight c ++ (supplies c ≫= supply_holds)
  ++ ClientSupplyCh (Supply c) ++ client c.

(** The sends on [Quit] in a schedule. *)
Definition stop_request (a : action) : nat :=
  match a with StopConsumer => 1 | _ => 0 end.
Definition stop_requests (sched : list action) : nat :=
  sum_list_with stop_request sched.

(** The signals raised in a schedule. *)
Definition raised (a : action) : list signal :=
  match a with Signal s => [s] | _ => [] end.
Definition signals (sched : list action) : list signal := sched ≫= raised.

(** [StartConsumer] has seen no signal: none is pending, and it is not
    past [<-c.TerminateCh]. *)
Definition quiet (c : BatchConsumer) : Prop :=
  TerminateCh c = [] ∧ ctx_done c = false ∧ exited c = None
  ∧ (starter c = SCInit ∨ starter c = SCWaitSignal).

(** The response channels that are advertised on [BatchSupplyCh] or in
    the hands of a worker. *)
Definition taken_slot (w : worker_pc) : list nat :=
  match w with WOffer _ s => [s] | _ => [] end.
Definition open_slots (c : BatchConsumer) : list nat :=
  BatchSupplyCh (Supply c) ++ (workers c ≫= taken_slot).

(** Every open response channel is a different one, and its
    [GetBatchSupply] call is waiting on it. *)
Definition slots_inv (c : BatchConsumer) : Prop :=
  NoDup (open_slots c)
  ∧ Forall (λ s, supplies c !! s = Some GSWait) (open_slots c).

(** The batch a step hands to a [GetBatchSupply] call: the one the
    worker holds, when the step is its send on the response channel. *)
Definition offered_by (a : action) (c : BatchConsumer) : list batch :=
  match a with
  | WorkerOffer i =>
      match workers c !! i with Some (WOffer b _) => [b] | _ => [] end
  | _ => []
  end.

(** The [GetBatchSupply] calls that have not sent their request yet,
    and the workers at the [select] on [BatchSupplyCh]. *)
Definition unsent (g : supply_pc) : nat :=
  match g with GSNew => 1 | _ => 0 end.
Definition selecting (w : worker_pc) : nat :=
  match w with WSelect _ => 1 | _ => 0 end.

(** Each worker at the [select] has started one call, whose request is
    queued on [BatchSupplyCh] or still to be sent. *)
Definition requests_inv (c : BatchConsumer) : Prop :=
  (length (BatchSupplyCh (Supply c)) + sum_list_with unsent (supplies c)
   = sum_list_with selecting (workers c))%nat.

(** What a worker holding a batch does with it, lines 149 to 153 of
    [WorkerFunc], together with the request of the [GetBatchSupply]
    call it starts. *)
Definition hand_over (i : nat) (c : BatchConsumer) : list action :=
  [ WorkerSpawn i; SupplyAdvertise (length (supplies c));
    WorkerTake i; WorkerOffer i ].

(** What the routing loop and the workers keep: [BatchWorkerCh] is
    closed exactly when the routing loop has returned; a worker has
    returned only once the channel was closed and empty. *)
Record closing_inv (c : BatchConsumer) : Prop := {
  ci_closed : BatchWorkerCh_closed c = true ↔ routing c = CBReturned;
  ci_done : WDone ∈ workers c →
            BatchWorkerCh_closed c = true ∧ BatchWorkerCh c = [];
}.

(** *** Sample runs *)

(** Two batches, each claimed by a worker and passed to its own
    [GetBatchSupply] call. *)
Definition two_batches : list action :=
  [ StartConsumer;
    ConsumerFunc [{| Id := 1; Item := PVal "a" |}]; RouteRecv; RouteForward;
    ConsumerFunc [{| Id := 2; Item := PVal "b" |}]; RouteRecv; RouteForward;
    WorkerRecv 0; WorkerRecv 1; WorkerSpawn 0; WorkerSpawn 1;
    SupplyAdvertise 0; SupplyAdvertise 1; WorkerTake 0; WorkerTake 1;
    WorkerOffer 0; WorkerOffer 1 ].

Definition after_two_batches : BatchConsumer :=
  default NewBatchConsumer (exec two_batches NewBatchConsumer).

(** The consumer started, and SIGTERM delivered. *)
Definition signalled : list action :=
  [ StartConsumer; Signal SIGTERM ].

Definition after_signalled : BatchConsumer :=
  default NewBatchConsumer (exec signalled NewBatchConsumer).

(** What the routing loop can still take from [Quit] and has taken from
    it or from the context: the values buffered, and one once the loop
    has returned. *)
Definition quit_credit (c : BatchConsumer) : nat :=
  length (Quit c) + match routing c with CBReturned => 1 | _ => 0 end.

(** The consumer is stopped, and a worker returns. *)
Definition quit_run : list action :=
  [ StartConsumer; StopConsumer; RouteQuit; WorkerExit 0 ].
Definition after_quit_run : BatchConsumer :=
  default NewBatchConsumer (exec quit_run NewBatchConsumer).

(** A batch goes all the way to the client. *)
Definition delivery : list action :=
  [ StartConsumer;
    ConsumerFunc [{| Id := 1; Item := PVal "a" |}]; RouteRecv; RouteForward;
    WorkerRecv 0; WorkerSpawn 0; SupplyAdvertise 0; WorkerTake 0;
    WorkerOffer 0; SupplyDeliver 0; ClientRecv ].
Definition after_delivery : BatchConsumer :=
  default NewBatchConsumer (exec delivery NewBatchConsumer).

(** A batch is handed over after the routing loop has returned. *)
Definition late_batch : list action :=
  [ StartConsumer; StopConsumer; RouteQuit ].
Definition after_late_batch : BatchConsumer :=
  default NewBatchConsumer (exec late_batch NewBatchConsumer).

(** A worker has taken a response channel and is about to send. *)
Definition offering : list action :=
  [ StartConsumer;
    ConsumerFunc [{| Id := 1; Item := PVal "a" |}]; RouteRecv; RouteForward;
    WorkerRecv 0; WorkerSpawn 0; SupplyAdvertise 0; WorkerTake 0 ].
Definition after_offering : BatchConsumer :=
  default NewBatchConsumer (exec offering NewBatchConsumer).

(** A worker has claimed a batch; an earlier batch is still with the
    worker that claimed it, whose request is queued. *)
Definition claiming : list action :=
  [ StartConsumer;
    ConsumerFunc [{| Id := 1; Item := PVal "a" |}]; RouteRecv; RouteForward;
    WorkerRecv 1; WorkerSpawn 1; SupplyAdvertise 0;
    ConsumerFunc [{| Id := 2; Item := PVal "b" |}]; RouteRecv; RouteForward;
    WorkerRecv 0 ].
Definition after_claiming : BatchConsumer :=
  default NewBatchConsumer (exec claiming NewBatchConsumer).

End Consumer.

(** ** The semaphore *)

Module Semaphore.

(** Modelled from the spec: the semaphore [NewBatch] builds with
    [NewSemaphore] and [Close] uses through [Lock] and [Unlock] is not
    among the sources.  It is the spec's CountingSemaphore: a number of
    permits fixed at construction; acquiring blocks while none is
    available; releasing returns one. *)
Record Semaphore := { permits : Z; held : Z }.

(** Modelled from the spec: construction with a fixed capacity. *)
Definition NewSemaphore (n : Z) : Semaphore := {| permits := n; held := 0 |}.

(** Modelled from the spec: Acquire; [None] when it blocks. *)
Definition Lock (s : Semaphore) : option Semaphore :=
  if bool_decide (held s < permits s)
  then Some {| permits := permits s; held := held s + 1 |} else None.

(** Modelled from the spec: Release of a permit that is held. *)
Definition Unlock (s : Semaphore) : option Semaphore :=
  if bool_decide (0 < held s)
  then Some {| permits := permits s; held := held s - 1 |} else None.

End Semaphore.

(** ** The producer's configuration *)

Module Producer.

(** Modelled from the spec: [BatchProducer] is not among the sources.
    [NewBatch] applies its options to the producer and reads
    [MaxItems] from it, so the producer carries the resolved
    configuration, the three fields of the spec's PipelineConfig.
    [MaxWait] is a [time.Duration], in nanoseconds. *)
Record BatchProducer := {
  MaxItems : Z;
  MaxWait : Z;
  WorkerPoolSize : Z;
}.

(** [opt(p)] in [NewBatch]: an option updates the producer. *)
Definition BatchOptions := BatchProducer → BatchProducer.

(** Modelled from the spec: the three recognised options. *)
Definition WithMaxItems (n : Z) : BatchOptions :=
  λ p, {| MaxItems := n; MaxWait := MaxWait p; WorkerPoolSize := WorkerPoolSize p |}.
Definition WithMaxWait (d : Z) : BatchOptions :=
  λ p, {| MaxItems := MaxItems p; MaxWait := d; WorkerPoolSize := WorkerPoolSize p |}.
Definition WithWorkerPoolSize (n : Z) : BatchOptions :=
  λ p, {| MaxItems := MaxItems p; MaxWait := MaxWait p; WorkerPoolSize := n |}.

(** Modelled from the spec: [NewBatchProducer] with the defaults of the
    unset options.  The spec documents [WorkerPoolSize = 10] only; the
    other two defaults are arguments. *)
Definition NewBatchProducer (DefaultMaxItems DefaultMaxWait : Z) : BatchProducer :=
  {| MaxItems := DefaultMaxItems; MaxWait := DefaultMaxWait;
     WorkerPoolSize := Z.of_nat DefaultWorkerPool |}.

End Producer.

(** ** The orchestrator ([batch/batch.go]) *)

Module Batch.

Inductive chan_state := Open | Closed.

(** A line of [b.Log]: the message and its "Remaining Items" field. *)
Record entry := { msg : string; remaining : nat }.

(** The package-level [items] slice. *)
Record slice := { elems : batch; cap : Z }.

Record Batch := {
  Item : chan_state;               (* chan interface{}, unbuffered *)
  Id : Z;
  Semaphore : Semaphore.Semaphore;
  Producer : Producer.BatchProducer;
  Consumer : Consumer.BatchConsumer;
  Log : list entry;
}.

(** [NewBatch].  [make([]BatchItems, 0, p.MaxItems)] panics when the
    capacity is negative or more than the runtime can allocate,
    [max_cap] elements; [None] is that panic.  [items] is the value of
    the package variable when [NewBatch] is called; the result carries
    its new value. *)
Definition NewBatch (DefaultMaxItems DefaultMaxWait max_cap : Z)
    (opts : list Producer.BatchOptions) (items : slice) : option (Batch * slice) :=
  let c := Consumer.NewBatchConsumer in
  let p := foldl (λ p opt, opt p)
             (Producer.NewBatchProducer DefaultMaxItems DefaultMaxWait) opts in
  if bool_decide (0 ≤ Producer.MaxItems p ≤ max_cap)
  then Some ({| Item := Open; Id := 0;
                Semaphore := Semaphore.NewSemaphore (wrap_int (Producer.MaxItems p));
                Producer := p; Consumer := c; Log := [] |},
             {| elems := []; cap := Producer.MaxItems p |})
  else None.

(** The goroutine [ReadItems] starts for each item: before it has
    evaluated [&BatchItems{Id: b.Id, Item: item}]; holding the value and
    sending it on [b.Producer.Watcher]; done. *)
Inductive forward_pc :=
| FwdNew (item : Payload)
| FwdSend (x : BatchItems)
| FwdDone (x : BatchItems).

(** Modelled from the spec: [WatchProducer], the assembler's loop, is
    not among the sources.  It is at its [select]; or it has sealed a
    batch and is inside the flush callback ([ConsumerFunc]); or it does
    so on its way out, after a stop request; or it has stopped. *)
Inductive producer_pc :=
| PSelect
| PFlush (b : batch)
| PFlushStop (b : batch)
| PStopped.

(** Modelled from the spec: [CheckRemainingItems(done)], the spec's
    DrainRemaining, is not among the sources: it flushes whatever items
    remain un-batched, then signals completion on [done], once. *)
Inductive drain_pc :=
| DrainStart
| DrainFlush (b : batch)
| DrainSignal
| DrainDone.

(** [Close], after line 97: at the [select]; then before each of lines
    102 to 106.  [ClReturned] is a call that has returned. *)
Inductive close_pc :=
| ClSelect
| ClLogDone
| ClLock
| ClStop
| ClCloseItem
| ClUnlock
| ClReturned.

Global Instance close_pc_eq_dec : EqDecision close_pc.
Proof. solve_decision. Defined.

(** One call of [Close] and the [CheckRemainingItems] it started, which
    share the call's [done] channel. *)
Record close_call := { close_at : close_pc; drain_at : drain_pc }.

Inductive panic :=
| CloseOfClosedChannel
| SendOnClosedChannel.

(** The running pipeline: the package variable [items], one [Batch] and
    its goroutines. *)
Record State := {
  items : batch;
  this : Batch;
  forwards : list forward_pc;
  assembler : producer_pc;
  closes : list close_call;
  stopping_producer : nat;         (* goroutines inside StopProducer *)
  stopping_consumer : nat;         (* goroutines inside StopConsumer *)
  panicked : option panic;
}.

(** Just after [StartBachProcessing]: the three goroutines exist and
    none has moved. *)
Definition start (b : Batch) (items0 : batch) : State :=
  {| items := items0; this := b; forwards := []; assembler := PSelect;
     closes := []; stopping_producer := 0; stopping_consumer := 0;
     panicked := None |}.

(** Field updates. *)
Definition set_Item v b :=
  {| Item := v; Id := Id b; Semaphore := Semaphore b; Producer := Producer b;
     Consumer := Consumer b; Log := Log b |}.
Definition set_Id v b :=
  {| Item := Item b; Id := v; Semaphore := Semaphore b; Producer := Producer b;
     Consumer := Consumer b; Log := Log b |}.
Definition set_Semaphore v b :=
  {| Item := Item b; Id := Id b; Semaphore := v; Producer := Producer b;
     Consumer := Consumer b; Log := Log b |}.
Definition set_Consumer v b :=
  {| Item := Item b; Id := Id b; Semaphore := Semaphore b; Producer := Producer b;
     Consumer := v; Log := Log b |}.
Definition set_Log v b :=
  {| Item := Item b; Id := Id b; Semaphore := Semaphore b; Producer := Producer b;
     Consumer := Consumer b; Log := v |}.
Definition set_items v s :=
  {| items := v; this := this s; forwards := forwards s;
     assembler := assembler s; closes := closes s;
     stopping_producer := stopping_producer s;
     stopping_consumer := stopping_consumer s; panicked := panicked s |}.
Definition set_this v s :=
  {| items := items s; this := v; forwards := forwards s;
     assembler := assembler s; closes := closes s;
     stopping_producer := stopping_producer s;
     stopping_consumer := stopping_consumer s; panicked := panicked s |}.
Definition set_forwards v s :=
  {| items := items s; this := this s; forwards := v;
     assembler := assembler s; closes := closes s;
     stopping_producer := stopping_producer s;
     stopping_consumer := stopping_consumer s; panicked := panicked s |}.
Definition set_assembler v s :=
  {| items := items s; this := this s; forwards := forwards s;
     assembler := v; closes := closes s;
     stopping_producer := stopping_producer s;
     stopping_consumer := stopping_consumer s; panicked := panicked s |}.
Definition set_closes v s :=
  {| items := items s; this := this s; forwards := forwards s;
     assembler := assembler s; closes := v;
     stopping_producer := stopping_producer s;
     stopping_consumer := stopping_consumer s; panicked := panicked s |}.
Definition set_stopping_producer v s :=
  {| items := items s; this := this s; forwards := forwards s;
     assembler := assembler s; closes := closes s;
     stopping_producer := v;
     stopping_consumer := stopping_consumer s; panicked := panicked s |}.
Definition set_stopping_consumer v s :=
  {| items := items s; this := this s; forwards := forwards s;
     assembler := assembler s; closes := closes s;
     stopping_producer := stopping_producer s;
     stopping_consumer := v; panicked := panicked s |}.
Definition set_panicked v s :=
  {| items := items s; this := this s; forwards := forwards s;
     assembler := assembler s; closes := closes s;
     stopping_producer := stopping_producer s;
     stopping_consumer := stopping_consumer s; panicked := v |}.

Definition set_close_at v k := {| close_at := v; drain_at := drain_at k |}.
Definition set_drain_at v k := {| close_at := close_at k; drain_at := v |}.

(** A step of the consumer, inside the pipeline. *)
Definition in_consumer (a : Consumer.action) (s : State) : option State :=
  c' ← Consumer.step a (Consumer (this s));
  Some (set_this (set_Consumer c' (this s)) s).

(** [b.Log.WithFields(log.Fields{"Remaining Items": len(items)}).Warn(m)] *)
Definition log_remaining (m : string) (s : State) : State :=
  set_this (set_Log (Log (this s) ++ [{| msg := m; remaining := length (items s) |}])
                    (this s)) s.

(** Lines 62 to 69 of [ReadItems], for the value received on [b.Item]:
    [b.Id++], then [go func(item)]. *)
Definition ReadItems_recv (item : Payload) (s : State) : State :=
  set_forwards (forwards s ++ [FwdNew item])
    (set_this (set_Id (wrap_int (Id (this s) + 1)) (this s)) s).

(** Modelled from the spec: the assembler receives [x] on [Watcher] and
    adds it to the current window; the count trigger seals the window
    the instant it reaches [MaxItems], and a new empty window opens. *)
Definition WatchProducer_recv (x : BatchItems) (s : State) : State :=
  let window := items s ++ [x] in
  if bool_decide (Producer.MaxItems (Producer (this s)) ≤ Z.of_nat (length window))
  then set_assembler (PFlush window) (set_items [] s)
  else set_items window s.

(** Modelled from the spec: the time trigger, for a window that has a
    first item; when [MaxWait] elapses is not modelled, so it may fire
    whenever the assembler is at its [select]. *)
Definition WatchProducer_timer (s : State) : option State :=
  match assembler s, items s with
  | PSelect, _ :: _ => Some (set_assembler (PFlush (items s)) (set_items [] s))
  | _, _ => None
  end.

(** Modelled from the spec: the stop request, received from a
    [StopProducer] goroutine on [Quit]: force-flush any partial batch,
    then terminate. *)
Definition WatchProducer_quit (s : State) : option State :=
  match assembler s, stopping_producer s with
  | PSelect, S n =>
      Some (set_stopping_producer n
           match items s with
           | [] => set_assembler PStopped s
           | _ :: _ => set_assembler (PFlushStop (items s)) (set_items [] s)
           end)
  | _, _ => None
  end.

(** Modelled from the spec: the flush callback returns once
    [ConsumerFunc] has sent the sealed batch. *)
Definition WatchProducer_flush (s : State) : option State :=
  match assembler s with
  | PFlush b =>
      s' ← in_consumer (Consumer.ConsumerFunc b) s; Some (set_assembler PSelect s')
  | PFlushStop b =>
      s' ← in_consumer (Consumer.ConsumerFunc b) s; Some (set_assembler PStopped s')
  | _ => None
  end.

(** Modelled from the spec: [CheckRemainingItems] takes what remains
    un-batched, and flushes it through the same callback. *)
Definition CheckRemainingItems_take (k : nat) (s : State) : option State :=
  match closes s !! k with
  | Some call =>
      match drain_at call with
      | DrainStart =>
          Some match items s with
               | [] => set_closes (<[k:=set_drain_at DrainSignal call]> (closes s)) s
               | _ :: _ =>
                   set_closes (<[k:=set_drain_at (DrainFlush (items s)) call]> (closes s))
                     (set_items [] s)
               end
      | _ => None
      end
  | None => None
  end.
Definition CheckRemainingItems_flush (k : nat) (s : State) : option State :=
  match closes s !! k with
  | Some call =>
      match drain_at call with
      | DrainFlush b =>
          s' ← in_consumer (Consumer.ConsumerFunc b) s;
          Some (set_closes (<[k:=set_drain_at DrainSignal call]> (closes s')) s')
      | _ => None
      end
  | None => None
  end.

(** The steps of the pipeline. *)
Inductive action :=
| Submit (x : Payload)             (* b.Item <- x, received at line 62 *)
| RecvClosed                       (* line 62, b.Item closed *)
| FwdEval (g : nat)                (* &BatchItems{Id: b.Id, Item: item} *)
| WatcherRecv (g : nat)            (* b.Producer.Watcher <- ..., received *)
| TimerFlush
| ProducerFlush
| ProducerQuit                     (* b.Producer.Quit <- true, received *)
| CallClose                        (* Close(), lines 93-97 *)
| DrainTake (k : nat)
| DrainFlushSend (k : nat)
| CloseRecvDone (k : nat)          (* done <- true / case <-done *)
| CloseLogDone (k : nat)           (* line 102 *)
| CloseLock (k : nat)              (* line 103 *)
| CloseStop (k : nat)              (* line 104, b.Stop() *)
| CloseItem (k : nat)              (* line 105, close(b.Item) *)
| CloseUnlock (k : nat)            (* line 106 *)
| StopConsumerSend                 (* b.Consumer.Quit <- true *)
| InConsumer (a : Consumer.action).

(** A step of call [k] of [Close] that is at [pc]. *)
Definition close_step (k : nat) (pc : close_pc)
    (f : close_call → State → option State) (s : State) : option State :=
  match closes s !! k with
  | Some call => if decide (close_at call = pc) then f call s else None
  | None => None
  end.

Definition goto (k : nat) (pc : close_pc) (call : close_call) (s : State) : State :=
  set_closes (<[k:=set_close_at pc call]> (closes s)) s.

(** One step.  Nothing moves after a panic or after [os.Exit].  The
    application only submits items and calls [Close]; a send on the
    closed [b.Item] panics in the sender. *)
Definition step (a : action) (s : State) : option State :=
  if panicked s is Some _ then None else
  if Consumer.exited (Consumer (this s)) is Some _ then None else
  match a with
  | Submit x =>
      match Item (this s) with
      | Open => Some (ReadItems_recv x s)
      | Closed => Some (set_panicked (Some SendOnClosedChannel) s)
      end
  | RecvClosed =>
      match Item (this s) with
      | Open => None
      | Closed => Some (ReadItems_recv PNil s)
      end
  | FwdEval g =>
      match forwards s !! g with
      | Some (FwdNew item) =>
          Some (set_forwards
                  (<[g:=FwdSend (Build_BatchItems (Id (this s)) item)]> (forwards s)) s)
      | _ => None
      end
  | WatcherRecv g =>
      match assembler s, forwards s !! g with
      | PSelect, Some (FwdSend x) =>
          Some (WatchProducer_recv x (set_forwards (<[g:=FwdDone x]> (forwards s)) s))
      | _, _ => None
      end
  | TimerFlush =>
      WatchProducer_timer s
  | ProducerFlush => WatchProducer_flush s
  | ProducerQuit =>
      WatchProducer_quit s
  | CallClose =>
      Some (set_closes (closes s ++ [{| close_at := ClSelect; drain_at := DrainStart |}])
           (log_remaining "Close" s))
  | DrainTake k =>
      CheckRemainingItems_take k s
  | DrainFlushSend k => CheckRemainingItems_flush k s
  | CloseRecvDone k =>
      close_step k ClSelect (λ call s,
        match drain_at call with
        | DrainSignal =>
            Some (set_closes
                    (<[k:={| close_at := ClLogDone; drain_at := DrainDone |}]> (closes s)) s)
        | _ => None
        end) s
  | CloseLogDone k =>
      close_step k ClLogDone (λ call s,
        Some (goto k ClLock call (log_remaining "Done" s))) s
  | CloseLock k =>
      close_step k ClLock (λ call s,
        sem ← Semaphore.Lock (Semaphore (this s));
        Some (goto k ClStop call (set_this (set_Semaphore sem (this s)) s))) s
  | CloseStop k =>
      close_step k ClStop (λ call s,
        Some (goto k ClCloseItem call
             (set_stopping_producer (S (stopping_producer s))
             (set_stopping_consumer (S (stopping_consumer s)) s)))) s
  | CloseItem k =>
      close_step k ClCloseItem (λ call s,
        match Item (this s) with
        | Open => Some (goto k ClUnlock call (set_this (set_Item Closed (this s)) s))
        | Closed => Some (set_panicked (Some CloseOfClosedChannel) s)
        end) s
  | CloseUnlock k =>
      close_step k ClUnlock (λ call s,
        sem ← Semaphore.Unlock (Semaphore (this s));
        Some (goto k ClSelect call (set_this (set_Semaphore sem (this s)) s))) s
  | StopConsumerSend =>
      match stopping_consumer s with
      | S n =>
          s' ← in_consumer Consumer.StopConsumer s;
          Some (set_stopping_consumer n s')
      | O => None
      end
  | InConsumer a =>
      match a with
      | Consumer.ConsumerFunc _ | Consumer.StopConsumer => None
      | _ => in_consumer a s
      end
  end.

Fixpoint exec (sched : list action) (s : State) : option State :=
  match sched with
  | [] => Some s
  | a :: sched' => s' ← step a s; exec sched' s'
  end.

(** *** Notions used in the statements *)

(** The producer after the options have been applied, in order. *)
Definition configured (dmi dmw : Z) (opts : list Producer.BatchOptions) :
    Producer.BatchProducer :=
  foldl (λ p opt, opt p) (Producer.NewBatchProducer dmi dmw) opts.


(** The batch [NewBatch] returns for [WithMaxItems m] over the defaults
    100 items and 30 seconds. *)
Definition demo_batch (m : Z) : Batch :=
  {| Item := Open; Id := 0;
     Semaphore := Semaphore.NewSemaphore (wrap_int m);
     Producer := Producer.WithMaxItems m (Producer.NewBatchProducer 100 30000000000);
     Consumer := Consumer.NewBatchConsumer; Log := [] |}.

(** The item a forwarding goroutine carries. *)
Definition payload_of (f : forward_pc) : Payload :=
  match f with
  | FwdNew item => item
  | FwdSend x | FwdDone x => payload x
  end.

(** The tagged item of a forwarding goroutine that has handed it to the
    producer; [handed] lists them in the order the goroutines were
    started, which is the order [ReadItems] received the items. *)
Definition handed_by (f : forward_pc) : option BatchItems :=
  match f with FwdDone x => Some x | _ => None end.
Definition handed (s : State) : batch := omap handed_by (forwards s).

(** The tagged items built so far, in the same order. *)
Definition tagged_by (f : forward_pc) : option BatchItems :=
  match f with FwdSend x | FwdDone x => Some x | FwdNew _ => None end.
Definition tagged (s : State) : batch := omap tagged_by (forwards s).

(** The values [ReadItems] received in [sched], in order. *)
Definition received_by (a : action) : option Payload :=
  match a with Submit x => Some x | RecvClosed => Some PNil | _ => None end.
Definition received (sched : list action) : list Payload := omap received_by sched.

(** The forwarding goroutines, in the order the producer received from
    them on [Watcher]. *)
Definition watcher_recv (a : action) : option nat :=
  match a with WatcherRecv g => Some g | _ => None end.
Definition watcher_order (sched : list action) : list nat := omap watcher_recv sched.

(** The tagged items the producer received on [Watcher] while [sched]
    ran from [s], in the order it received them: a receive from
    goroutine [g] takes the value [g] is sending. *)
Definition watcher_item (a : action) (s : State) : option BatchItems :=
  match a with
  | WatcherRecv g =>
      match forwards s !! g with Some (FwdSend x) => Some x | _ => None end
  | _ => None
  end.
Fixpoint watched (sched : list action) (s : State) : batch :=
  match sched with
  | [] => []
  | a :: sched' =>
      match step a s with
      | Some s' => option_list (watcher_item a s) ++ watched sched' s'
      | None => []
      end
  end.

(** Every batch of the pipeline: the current window, the sealed batches
    the assembler or a drain is flushing, and those of the consumer. *)
Definition assembler_held (s : State) : list batch :=
  match assembler s with PFlush b | PFlushStop b => [b] | _ => [] end.
Definition drain_held (k : close_call) : list batch :=
  match drain_at k with DrainFlush b => [b] | _ => [] end.
Definition all_batches (s : State) : list batch :=
  items s :: assembler_held s ++ (closes s ≫= drain_held)
  ++ Consumer.everywhere (Consumer (this s)).

(** What holds of the calls of [Close] in every state: a call is never
    returned, and it is past its [select] only after its drain has
    signalled. *)
Definition close_inv (s : State) : Prop :=
  ∀ k call, closes s !! k = Some call →
    close_at call ≠ ClReturned
    ∧ (close_at call ≠ ClSelect → drain_at call = DrainDone).

(** With at most one call of [Close]: no close of a closed channel has
    happened, and [b.Item] is closed only once that call is past line
    105. *)
Definition single_close_inv (s : State) : Prop :=
  (length (closes s) ≤ 1)%nat →
  panicked s ≠ Some CloseOfClosedChannel
  ∧ (closes s = [] → Item (this s) = Open)
  ∧ ∀ call, closes s = [call] →
      (close_at call ≠ ClSelect → drain_at call = DrainDone)
      ∧ (Item (this s) = Closed →
         drain_at call = DrainDone
         ∧ (close_at call = ClUnlock ∨ close_at call = ClSelect)).

(** *** Sample runs *)

(** One call of [Close] on an idle pipeline, up to its second visit of
    the [select]. *)
Definition close_run : list action :=
  [ CallClose; DrainTake 0; CloseRecvDone 0; CloseLogDone 0; CloseLock 0;
    CloseStop 0; CloseItem 0; CloseUnlock 0 ].
Definition after_close_run : State :=
  default (start (demo_batch 5) []) (exec close_run (start (demo_batch 5) [])).

(** A second call of [Close], made while the first one runs. *)
Definition two_closes : list action :=
  [ CallClose; CallClose; DrainTake 0; DrainTake 1;
    CloseRecvDone 0; CloseRecvDone 1;
    CloseLogDone 0; CloseLock 0; CloseStop 0; CloseItem 0; CloseUnlock 0;
    CloseLogDone 1; CloseLock 1; CloseStop 1; CloseItem 1 ].

(** One item submitted, tagged and received by the assembler. *)
Definition one_item : list action :=
  [ Submit (PVal "a"); FwdEval 0; WatcherRecv 0 ].
Definition after_one_item : State :=
  default (start (demo_batch 5) []) (exec one_item (start (demo_batch 5) [])).

(** Two items submitted before either forwarding goroutine reads
    [b.Id]. *)
Definition late_reads : list action :=
  [ Submit (PVal "a"); Submit (PVal "b"); FwdEval 0; FwdEval 1 ].

(** Two items whose forwarding goroutines reach the producer in the
    opposite order. *)
Definition overtaking : list action :=
  [ Submit (PVal "a"); FwdEval 0; Submit (PVal "b"); FwdEval 1;
    WatcherRecv 1; WatcherRecv 0; ProducerFlush ].

(** Two items with [MaxItems = 1], both tagged after the second
    increment of [b.Id]; each is sealed as a batch of its own, routed
    and claimed by a worker, and two [GetBatchSupply] calls have sent
    their requests. *)
Definition two_callers_waiting : list action :=
  [ InConsumer Consumer.StartConsumer;
    Submit (PVal "a"); Submit (PVal "b"); FwdEval 0; FwdEval 1;
    WatcherRecv 0; ProducerFlush;
    InConsumer Consumer.RouteRecv; InConsumer Consumer.RouteForward;
    WatcherRecv 1; ProducerFlush;
    InConsumer Consumer.RouteRecv; InConsumer Consumer.RouteForward;
    InConsumer (Consumer.WorkerRecv 0); InConsumer (Consumer.WorkerRecv 1);
    InConsumer (Consumer.WorkerSpawn 0); InConsumer (Consumer.WorkerSpawn 1);
    InConsumer (Consumer.SupplyAdvertise 0);
    InConsumer (Consumer.SupplyAdvertise 1) ].

(** The two workers answer the two calls, and the client reads what the
    calls pass on. *)
Definition two_callers_served : list action :=
  [ InConsumer (Consumer.WorkerTake 0); InConsumer (Consumer.WorkerTake 1);
    InConsumer (Consumer.WorkerOffer 0); InConsumer (Consumer.WorkerOffer 1);
    InConsumer (Consumer.SupplyDeliver 0); InConsumer Consumer.ClientRecv;
    InConsumer (Consumer.SupplyDeliver 1); InConsumer Consumer.ClientRecv ].

(** The same two items, reaching the producer in the order they were
    submitted. *)
Definition in_order : list action :=
  [ Submit (PVal "a"); FwdEval 0; Submit (PVal "b"); FwdEval 1;
    WatcherRecv 0; WatcherRecv 1; ProducerFlush ].
Definition after_in_order : State :=
  default (start (demo_batch 2) []) (exec in_order (start (demo_batch 2) [])).

(** One item, then [Close]; the stop request reaches the routing loop
    while the drained batch waits in [ConsumerCh]. *)
Definition drain_then_quit : list action :=
  [ InConsumer Consumer.StartConsumer;
    Submit (PVal "a"); FwdEval 0; WatcherRecv 0;
    CallClose; DrainTake 0; DrainFlushSend 0; CloseRecvDone 0;
    CloseLogDone 0; CloseLock 0; CloseStop 0; CloseItem 0; CloseUnlock 0;
    StopConsumerSend; InConsumer Consumer.RouteQuit ].

(** *** Further notions and runs *)

(** The calls of [Close] that are between [Lock] and [Unlock]. *)
Definition in_section (k : close_call) : nat :=
  match close_at k with ClStop | ClCloseItem | ClUnlock => 1 | _ => 0 end.
Definition in_sections (s : State) : nat := sum_list_with in_section (closes s).

(** What [ReadItems] and the forwarding goroutines keep, as long as
    fewer than [2^63] items were received: [b.Id] is the number of items
    received, and the identifier a goroutine has read lies between the
    rank of its item and that number. *)
Definition Id_inv (s : State) : Prop :=
  Z.of_nat (length (forwards s)) < 2^63 →
  Id (this s) = Z.of_nat (length (forwards s))
  ∧ ∀ g f x, forwards s !! g = Some f → tagged_by f = Some x →
      Z.of_nat g < id_of x ≤ Z.of_nat (length (forwards s)).

(** [b.Item] is closed only when some call of [Close] has received its
    drain-completion signal. *)
Definition closed_after_drain (s : State) : Prop :=
  Item (this s) = Closed →
  ∃ k call, closes s !! k = Some call ∧ drain_at call = DrainDone.

(** Three items, the second tagged late. *)
Definition three_items : list action :=
  [ Submit (PVal "a"); FwdEval 0; Submit (PVal "b"); Submit (PVal "c");
    FwdEval 1; FwdEval 2 ].
Definition after_three_items : State :=
  default (start (demo_batch 5) []) (exec three_items (start (demo_batch 5) [])).

(** A call of [Close] that holds the semaphore. *)
Definition locked_run : list action :=
  [ CallClose; DrainTake 0; CloseRecvDone 0; CloseLogDone 0; CloseLock 0;
    CloseStop 0; CloseItem 0 ].
Definition after_locked_run : State :=
  default (start (demo_batch 5) []) (exec locked_run (start (demo_batch 5) [])).
Global Arguments in_section !_ /.

(** The semaphore counts the calls inside the section, within its
    capacity. *)
Definition sem_inv (p : Z) (s : State) : Prop :=
  Semaphore.permits (Semaphore (this s)) = p
  ∧ Semaphore.held (Semaphore (this s)) = Z.of_nat (in_sections s)
  ∧ Z.of_nat (in_sections s) ≤ Z.max 0 p.

End Batch.

(** * Proofs *)

(** ** Facts about [omap] and list update *)

Lemma omap_None {A B} (f : A → option B) (l : list A) :
  (∀ j w, l !! j = Some w → f w = None) → omap f l = [].
Proof.
  induction l as [|a l IH]; intros Hl; [done|]. simpl.
  rewrite (Hl 0%nat a eq_refl). apply IH. intros j w. apply (Hl (S j)).
Qed.

Lemma omap_insert_None {A B} (f : A → option B) (l : list A) i y z :
  l !! i = Some y → f y = None → f z = None →
  omap f (<[i:=z]> l) = omap f l.
Proof.
  intros Hi Hy Hz. revert i Hi.
  induction l as [|a l IH]; intros [|i] Hi; simplify_eq/=.
  - by rewrite Hy, Hz.
  - by rewrite (IH i).
Qed.

Lemma omap_insert_last {A B} (f : A → option B) (l : list A) i y z x :
  l !! i = Some y → f y = None → f z = Some x →
  (∀ j w, (i < j)%nat → l !! j = Some w → f w = None) →
  omap f (<[i:=z]> l) = omap f l ++ [x].
Proof.
  intros Hi Hy Hz. revert i Hi.
  induction l as [|a l IH]; intros [|i] Hi Hafter; simplify_eq/=.
  - rewrite Hy, Hz. rewrite (omap_None f l); [done|].
    intros j w. apply (Hafter (S j)). lia.
  - rewrite (IH i); [by destruct (f a)|done|].
    intros j w Hj. apply (Hafter (S j)). lia.
Qed.

(** ** The consumer *)

Module ConsumerFacts.
Import Consumer.

(** *** Steps and list updates *)

Lemma bind_insert {A B} (f : A → list B) (l : list A) i x y :
  l !! i = Some x →
  ∃ k, l ≫= f ≡ₚ f x ++ k ∧ <[i:=y]> l ≫= f ≡ₚ f y ++ k.
Proof.
  intros Hi. exists ((take i l ≫= f) ++ (drop (S i) l ≫= f)).
  pose proof (lookup_lt_Some _ _ _ Hi) as Hlt.
  rewrite insert_take_drop by done.
  rewrite <- (take_drop_middle l i x) at 1 by done.
  rewrite !bind_app, !bind_cons. split; solve_Permutation.
Qed.

Ltac step_cases H :=
  unfold step, GetBatchSupply_request, GetBatchSupply_deliver in H;
  repeat match type of H with
         | context [match ?x with _ => _ end] => destruct x eqn:?; try discriminate H
         end;
  try (injection H as <-).

Ltac use_insert f :=
  repeat match goal with
         | Hl : ?l !! ?i = Some ?x |- context [<[?i:=?y]> ?l ≫= f] =>
             let k := fresh "k" in
             let E1 := fresh "E" in
             let E2 := fresh "E" in
             destruct (bind_insert f l i x y Hl) as (k & E1 & E2);
             rewrite E2; try rewrite E1; clear E1 E2
         end.

Lemma exec_app sched1 sched2 c :
  exec (sched1 ++ sched2) c = c' ← exec sched1 c; exec sched2 c'.
Proof.
  revert c. induction sched1 as [|a sched1 IH]; intros c; simpl; [done|].
  destruct (step a c); simpl; [apply IH|done].
Qed.

(** A property kept by every step holds along every schedule. *)
Lemma exec_invariant (P : BatchConsumer → Prop) :
  (∀ a c c', P c → step a c = Some c' → P c') →
  ∀ sched c c', P c → exec sched c = Some c' → P c'.
Proof.
  intros Hstep sched. induction sched as [|a sched IH]; intros c c' Hc H.
  - by simplify_eq/=.
  - simpl in H. destruct (step a c) as [c1|] eqn:E; [|done].
    eapply IH; [|exact H]. by eapply Hstep.
Qed.

(** *** [StartConsumer] *)

Lemma starter_inv_init : starter_inv NewBatchConsumer.
Proof. by split. Qed.

Lemma starter_inv_step a c c' :
  starter_inv c → step a c = Some c' → starter_inv c'.
Proof.
  intros [] H. step_cases H; split; simpl in *;
    rewrite ?length_insert, ?length_app, ?length_replicate;
    repeat match goal with E : starter c = _ |- _ => rewrite E in *; clear E end;
    try done; try lia; try (intros; simplify_eq; done);
    try (unfold DefaultWorkerPool; simpl; lia).
Qed.

Lemma starter_inv_exec sched c :
  exec sched NewBatchConsumer = Some c → starter_inv c.
Proof. apply exec_invariant; [apply starter_inv_step|apply starter_inv_init]. Qed.

(** Nothing moves once the process has exited. *)
Lemma exited_stuck a c :
  is_Some (exited c) → step a c = None.
Proof. intros [code E]. unfold step. by rewrite E. Qed.

(** *** Where batches can come from, and where they cannot go *)

(** A step creates no batch: what the consumer holds afterwards it held
    before, or it is the batch just handed over. *)
Lemma step_everywhere a c c' bt :
  step a c = Some c' →
  bt ∈ everywhere c' → bt ∈ everywhere c ∨ bt ∈ accepted_by a.
Proof.
  intros H. step_cases H;
    unfold everywhere, in_flight, supplied, routing_held; simpl;
    use_insert worker_held; use_insert supply_got;
    rewrite ?bind_app;
    repeat match goal with
           | E : routing c = _ |- _ => rewrite E; clear E
           | E : ConsumerCh c = _ |- _ => rewrite E; clear E
           | E : BatchWorkerCh c = _ |- _ => rewrite E; clear E
           | E : ClientSupplyCh _ = _ |- _ => rewrite E; clear E
           end; csimpl;
    repeat first [rewrite elem_of_app|rewrite elem_of_cons|rewrite elem_of_nil];
    tauto.
Qed.

Lemma nothing_downstream_step a c c' :
  nothing_downstream c → step a c = Some c' → nothing_downstream c'.
Proof.
  intros [Hr Hq Hw Hs Hcc Hcl] H. step_cases H; try congruence;
    repeat match goal with
           | Hl : workers c !! _ = Some _ |- _ =>
               apply (Forall_lookup_1 _ _ _ _ Hw) in Hl; try discriminate Hl
           | Hl : supplies c !! _ = Some _ |- _ =>
               apply (Forall_lookup_1 _ _ _ _ Hs) in Hl; try discriminate Hl
           end;
    split; simpl; try done;
    try (apply Forall_insert; done); try (apply Forall_app; split; by repeat constructor).
Qed.

(** With the routing loop gone, a full [ConsumerCh] keeps its batch. *)
Lemma ConsumerCh_kept a c c' :
  nothing_downstream c → length (ConsumerCh c) = 1%nat →
  step a c = Some c' → ConsumerCh c' = ConsumerCh c.
Proof.
  intros [Hr _ _ _ _ _] Hlen H. step_cases H; simpl; try done; try congruence.
  unfold has_room in *. case_bool_decide; [lia|done].
Qed.

(** *** Termination *)

(** C6, as amended.  When [StartConsumer] has a termination signal to
    receive, it receives it, cancels the context of the routing loop
    and then ends the process itself with [os.Exit(0)]: after these
    three steps nothing can move any more.  In no state the consumer
    reaches has [StartConsumer] returned to its caller. *)
Theorem termination_cancels_then_exits sched c :
  exec sched NewBatchConsumer = Some c →
  starter c = SCWaitSignal →
  TerminateCh c ≠ [] →
  starter c ≠ SCReturned ∧
  ∃ c', exec [StartTerminate; StartCancel; StartExit] c = Some c'
        ∧ ctx_done c' = true ∧ exited c' = Some 0
        ∧ starter c' ≠ SCReturned ∧ ∀ a, step a c' = None.
Proof.
  intros Hexec Hst Hsig.
  pose proof (starter_inv_exec _ _ Hexec) as [].
  split; [done|].
  destruct (exited c) as [code|] eqn:Hex.
  { destruct (si_exited0 code eq_refl) as [_ E]. congruence. }
  destruct (TerminateCh c) as [|sg q] eqn:Hq; [done|].
  set (c1 := set_starter SCCancel (set_TerminateCh q c)).
  set (c2 := set_starter SCExit (set_ctx_done true c1)).
  assert (step StartTerminate c = Some c1) as E1.
  { unfold step. by rewrite Hex, Hst, Hq. }
  assert (step StartCancel c1 = Some c2) as E2.
  { unfold step. simpl. by rewrite Hex. }
  assert (step StartExit c2 = Some (set_exited (Some 0) c2)) as E3.
  { unfold step. simpl. by rewrite Hex. }
  exists (set_exited (Some 0) c2). split.
  { cbn [exec]. rewrite E1. cbn [mbind option_bind]. rewrite E2.
    cbn [mbind option_bind]. by rewrite E3. }
  split; [done|]. split; [done|]. split; [done|].
  intros a. by apply exited_stuck.
Qed.

Lemma termination_cancels_then_exits_witness :
  starter after_signalled ≠ SCReturned ∧
  ∃ c', exec [StartTerminate; StartCancel; StartExit] after_signalled = Some c'
        ∧ ctx_done c' = true ∧ exited c' = Some 0
        ∧ starter c' ≠ SCReturned ∧ ∀ a, step a c' = None.
Proof.
  apply (termination_cancels_then_exits signalled after_signalled).
  - vm_compute; reflexivity.
  - vm_compute; reflexivity.
  - vm_compute; discriminate.
Defined.

(** C6 as stated fails: here a worker has claimed a batch when SIGTERM
    arrives; the process exits with the batch still in the worker's
    hands, [StartConsumer] is at [os.Exit(0)], not returned, the wait
    group still counts all ten workers, and nothing can move. *)
Lemma exit_does_not_wait_for_workers :
  ∃ c,
    exec [ StartConsumer; ConsumerFunc [{| Id := 1; Item := PVal "a" |}];
           RouteRecv; RouteForward; WorkerRecv 0;
           Signal SIGTERM; StartTerminate; StartCancel; StartExit ]
         NewBatchConsumer = Some c
    ∧ exited c = Some 0
    ∧ workers c !! 0%nat = Some (WClaimed [{| Id := 1; Item := PVal "a" |}])
    ∧ starter c = SCExit
    ∧ Workerline c = 10%nat
    ∧ ∀ a, step a c = None.
Proof.
  eexists. split; [vm_compute; reflexivity|].
  split; [done|]. split; [done|]. split; [done|]. split; [done|].
  intros a. by apply exited_stuck.
Qed.

End ConsumerFacts.

(** ** The orchestrator *)

Module BatchFacts.
Import Batch.

Lemma run_app sched1 sched2 s :
  exec (sched1 ++ sched2) s = s' ← exec sched1 s; exec sched2 s'.
Proof.
  revert s. induction sched1 as [|a sched1 IH]; intros s; simpl; [done|].
  destruct (step a s); simpl; [apply IH|done].
Qed.

Lemma run_invariant (P : State → Prop) :
  (∀ a s s', P s → step a s = Some s' → P s') →
  ∀ sched s s', P s → exec sched s = Some s' → P s'.
Proof.
  intros Hstep sched. induction sched as [|a sched IH]; intros s s' Hs H.
  - by simplify_eq/=.
  - simpl in H. destruct (step a s) as [s1|] eqn:E; [|done].
    eapply IH; [|exact H]. by eapply Hstep.
Qed.

(** *** Construction *)

Lemma NewBatch_inv dmi dmw max_cap opts items0 b items1 :
  NewBatch dmi dmw max_cap opts items0 = Some (b, items1) →
  0 ≤ Producer.MaxItems (configured dmi dmw opts) ≤ max_cap
  ∧ Producer b = configured dmi dmw opts
  ∧ Consumer b = Consumer.NewBatchConsumer
  ∧ Item b = Open ∧ Id b = 0 ∧ Log b = []
  ∧ items1 = {| elems := []; cap := Producer.MaxItems (configured dmi dmw opts) |}.
Proof.
  unfold NewBatch, configured. case_bool_decide; [|done].
  intros ?; by simplify_eq/=.
Qed.

(** C7, as amended.  Whatever options [NewBatch] was given,
    [StartConsumer] starts exactly [DefaultWorkerPool] workers, which is
    10, and registers as many with the wait group; the pool keeps that
    size along every schedule.  The options reach the producer only. *)
Theorem worker_pool_is_DefaultWorkerPool dmi dmw max_cap opts items0 b items1 :
  NewBatch dmi dmw max_cap opts items0 = Some (b, items1) →
  DefaultWorkerPool = 10%nat ∧
  ∃ c, Consumer.step Consumer.StartConsumer (Consumer b) = Some c
       ∧ Consumer.workers c = replicate DefaultWorkerPool Consumer.WRange
       ∧ Consumer.Workerline c = DefaultWorkerPool
       ∧ ∀ sched c', Consumer.exec sched c = Some c' →
                     length (Consumer.workers c') = DefaultWorkerPool.
Proof.
  intros (_ & _ & -> & _)%NewBatch_inv. split; [done|].
  eexists. split; [vm_compute; reflexivity|].
  split; [done|]. split; [done|].
  intros sched c' Hexec.
  pose proof (ConsumerFacts.starter_inv_exec (Consumer.StartConsumer :: sched) c') as Hinv.
  destruct Hinv as [_ _ _ Hex Hw]; [exact Hexec|].
  assert (Consumer.starter c' ≠ Consumer.SCInit) as Hne.
  { revert Hexec. apply (ConsumerFacts.exec_invariant
      (λ c, Consumer.starter c ≠ Consumer.SCInit)); [|done].
    intros a c1 c2 Hc1 H. ConsumerFacts.step_cases H; simpl; congruence. }
  destruct (Consumer.starter c'); done.
Qed.

Lemma worker_pool_is_DefaultWorkerPool_witness :
  DefaultWorkerPool = 10%nat ∧
  ∃ c, Consumer.step Consumer.StartConsumer Consumer.NewBatchConsumer = Some c
       ∧ Consumer.workers c = replicate DefaultWorkerPool Consumer.WRange
       ∧ Consumer.Workerline c = DefaultWorkerPool
       ∧ ∀ sched c', Consumer.exec sched c = Some c' →
                     length (Consumer.workers c') = DefaultWorkerPool.
Proof.
  apply (worker_pool_is_DefaultWorkerPool 100 30000000000 4096
           [Producer.WithWorkerPoolSize 4] {| elems := []; cap := 0 |}
           {| Item := Open; Id := 0; Semaphore := Semaphore.NewSemaphore 100;
              Producer := Producer.WithWorkerPoolSize 4
                            (Producer.NewBatchProducer 100 30000000000);
              Consumer := Consumer.NewBatchConsumer; Log := [] |}
           {| elems := []; cap := 100 |}).
  vm_compute; reflexivity.
Defined.

(** C7 as stated fails: configured with [WithWorkerPoolSize 4], the
    consumer still starts ten workers. *)
Lemma WithWorkerPoolSize_is_ignored :
  ∃ b items1 c,
    NewBatch 100 30000000000 4096 [Producer.WithWorkerPoolSize 4]
             {| elems := []; cap := 0 |} = Some (b, items1)
    ∧ Producer.WorkerPoolSize (Producer b) = 4
    ∧ Consumer.step Consumer.StartConsumer (Consumer b) = Some c
    ∧ length (Consumer.workers c) = 10%nat
    ∧ length (Consumer.workers c) ≠ 4%nat.
Proof.
  do 3 eexists. split; [vm_compute; reflexivity|].
  split; [done|]. split; [vm_compute; reflexivity|]. split; [done|]. simpl. lia.
Qed.

(** C8, as amended.  [NewBatch] validates nothing and has no error
    result.  Whenever the options leave [MaxItems] a capacity that
    [make] accepts, zero included, and whatever they make of [MaxWait]
    and [WorkerPoolSize], it returns a [Batch] whose producer carries
    exactly the values the options set, and the consumer of that
    pipeline can be started. *)
Theorem NewBatch_validates_nothing dmi dmw max_cap opts items0 :
  0 ≤ Producer.MaxItems (configured dmi dmw opts) ≤ max_cap →
  ∃ b items1,
    NewBatch dmi dmw max_cap opts items0 = Some (b, items1)
    ∧ Producer b = configured dmi dmw opts
    ∧ is_Some (step (InConsumer Consumer.StartConsumer) (start b (elems items1))).
Proof.
  intros Hcap. unfold NewBatch. fold (configured dmi dmw opts).
  rewrite bool_decide_eq_true_2 by done.
  do 2 eexists. split; [reflexivity|]. split; [done|].
  by eexists.
Qed.

Lemma NewBatch_validates_nothing_witness :
  ∃ b items1,
    NewBatch 100 30000000000 4096
      [Producer.WithMaxItems 0; Producer.WithMaxWait (-1)]
      {| elems := []; cap := 0 |} = Some (b, items1)
    ∧ Producer b = configured 100 30000000000
                     [Producer.WithMaxItems 0; Producer.WithMaxWait (-1)]
    ∧ is_Some (step (InConsumer Consumer.StartConsumer) (start b (elems items1))).
Proof.
  apply (NewBatch_validates_nothing 100 30000000000 4096
           [Producer.WithMaxItems 0; Producer.WithMaxWait (-1)]).
  vm_compute. split; discriminate.
Defined.

(** C8 as stated fails: with [MaxItems = 0], [MaxWait = -1] and
    [WorkerPoolSize = 0], [NewBatch] returns a [Batch], and the pipeline
    built on it starts and takes an item. *)
Lemma NewBatch_accepts_non_positive_configuration :
  ∃ b items1 s,
    NewBatch 100 30000000000 4096
      [Producer.WithMaxItems 0; Producer.WithMaxWait (-1);
       Producer.WithWorkerPoolSize 0]
      {| elems := []; cap := 0 |} = Some (b, items1)
    ∧ Producer.MaxItems (Producer b) = 0
    ∧ Producer.MaxWait (Producer b) = -1
    ∧ Producer.WorkerPoolSize (Producer b) = 0
    ∧ exec [InConsumer Consumer.StartConsumer; Submit (PVal "a");
            FwdEval 0; WatcherRecv 0] (start b (elems items1)) = Some s.
Proof.
  do 3 eexists. split; [vm_compute; reflexivity|].
  split; [done|]. split; [done|]. split; [done|]. vm_compute; reflexivity.
Qed.


(** *** The calls of [Close] *)

Lemma in_consumer_Some a s s' :
  in_consumer a s = Some s' →
  ∃ c', Consumer.step a (Consumer (this s)) = Some c'
        ∧ s' = set_this (set_Consumer c' (this s)) s.
Proof.
  unfold in_consumer. destruct (Consumer.step a (Consumer (this s))); [|done].
  intros [= <-]. by eexists.
Qed.

Ltac step_cases H :=
  unfold step, close_step, WatchProducer_timer, WatchProducer_quit,
    WatchProducer_flush, CheckRemainingItems_take, CheckRemainingItems_flush in H;
  repeat match type of H with
         | context [match ?x with _ => _ end] =>
             destruct x eqn:?; simpl in H; try discriminate H
         | context [mbind _ ?x] =>
             destruct x eqn:?; simpl in H; try discriminate H
         end;
  try (injection H as <-);
  repeat match goal with
         | Hc : in_consumer _ _ = Some _ |- _ =>
             let c' := fresh "c'" in
             apply in_consumer_Some in Hc as (c' & Hc & ->)
         end.

Ltac lookup_cases H :=
  simpl in H;
  first
    [ apply list_lookup_insert_Some in H as [(<- & <- & ?)|(? & H)]
    | apply lookup_snoc_Some in H as [(? & H)|(? & <-)]
    | idtac ].

Ltac close_inv_finish Hinv :=
  match goal with
  | Hl : closes _ !! _ = Some ?c |- _ =>
      let H1 := fresh in let H2 := fresh in
      destruct (Hinv _ _ Hl) as [H1 H2];
      split; [simpl in *; congruence
             |simpl in *; intros Hne;
              try (destruct (decide (close_at c = ClSelect));
                   [congruence|specialize (H2 ltac:(assumption))]);
              congruence]
  end.

Lemma close_inv_step a s s' : close_inv s → step a s = Some s' → close_inv s'.
Proof.
  intros Hinv H. step_cases H; intros k0 call0 Hk0; unfold goto in *;
    unfold WatchProducer_recv, log_remaining, ReadItems_recv in *;
    repeat case_bool_decide; repeat case_match; simpl in *;
    lookup_cases Hk0; simpl;
    try (by eapply Hinv); try (split; done);
    try close_inv_finish Hinv.
Qed.

Lemma close_inv_exec b items0 sched s :
  exec sched (start b items0) = Some s → close_inv s.
Proof.
  apply run_invariant; [apply close_inv_step|]. by intros k call Hk.
Qed.

(** A call back at its [select] whose drain has already signalled is
    not moved by any step. *)
Lemma parked_step a s s' k call :
  closes s !! k = Some call →
  close_at call = ClSelect → drain_at call = DrainDone →
  step a s = Some s' → closes s' !! k = Some call.
Proof.
  intros Hk Hat Hdr H. step_cases H; unfold goto in *;
    unfold WatchProducer_recv, log_remaining, ReadItems_recv in *;
    repeat case_bool_decide; repeat case_match; simpl in *; try done;
    try (by apply lookup_app_l_Some);
    rewrite list_lookup_insert_ne; try done;
    intros ->; simplify_eq; congruence.
Qed.

Lemma parked_exec sched s s' k call :
  closes s !! k = Some call →
  close_at call = ClSelect → drain_at call = DrainDone →
  exec sched s = Some s' → closes s' !! k = Some call.
Proof.
  intros Hk Hat Hdr Hexec.
  eapply (run_invariant (λ s, closes s !! k = Some call)); [|exact Hk|exact Hexec].
  intros a s1 s2 H1 H. by eapply parked_step.
Qed.

(** C9.  [Close] never returns.  In every state the pipeline reaches,
    no call of [Close] has returned; and a call that has received its
    drain-completion signal and run the branch is back at the [select]
    on a channel nobody signals again: it stays there along every
    further schedule. *)
Theorem Close_never_returns b items0 sched s k call :
  exec sched (start b items0) = Some s →
  closes s !! k = Some call →
  close_at call ≠ ClReturned
  ∧ (close_at call = ClSelect → drain_at call = DrainDone →
     ∀ sched' s', exec sched' s = Some s' → closes s' !! k = Some call).
Proof.
  intros Hexec Hk. split.
  - by apply (close_inv_exec _ _ _ _ Hexec k call).
  - intros Hat Hdr sched' s'. by apply parked_exec.
Qed.

(** *** The consumer inside the pipeline *)

Lemma step_consumer a s s' :
  step a s = Some s' →
  Consumer (this s') = Consumer (this s)
  ∨ ∃ ca, Consumer.step ca (Consumer (this s)) = Some (Consumer (this s')).
Proof.
  intros H. step_cases H; unfold goto in *;
    unfold WatchProducer_recv, log_remaining, ReadItems_recv in *;
    repeat case_bool_decide; repeat case_match; simpl in *;
    first [by left|right; by eexists].
Qed.

Lemma consumer_invariant (P : Consumer.BatchConsumer → Prop) :
  (∀ a c c', P c → Consumer.step a c = Some c' → P c') →
  ∀ sched s s', P (Consumer (this s)) → exec sched s = Some s' →
                P (Consumer (this s')).
Proof.
  intros Hstep sched s s'.
  apply (run_invariant (λ s, P (Consumer (this s)))).
  intros a s1 s2 H1 H.
  destruct (step_consumer _ _ _ H) as [->|[ca Hca]]; [done|].
  by eapply Hstep.
Qed.

(** C1, on the failing run.  One item is submitted and reaches the
    assembler, with [MaxItems = 6]; then [Close] is called.  The drain
    flushes the item into [ConsumerCh] and signals; [Close] goes on to
    [Stop]; the routing loop's [select] takes the [Quit] case, closes
    [BatchWorkerCh] and returns.  The drained batch is left in
    [ConsumerCh], which nobody reads any more: along every further
    schedule it stays there, no [GetBatchSupply] call receives it and
    the client gets nothing. *)
Theorem drained_batch_is_stranded :
  ∃ b items1 s,
    NewBatch 100 30000000000 4096 [Producer.WithMaxItems 6]
             {| elems := []; cap := 0 |} = Some (b, items1)
    ∧ exec drain_then_quit (start b (elems items1)) = Some s
    ∧ received drain_then_quit = [PVal "a"]
    ∧ ∀ sched' s', exec sched' s = Some s' →
        Consumer.ConsumerCh (Consumer (this s')) = [[Build_BatchItems 1 (PVal "a")]]
        ∧ Consumer.supplied (Consumer (this s')) = []
        ∧ Consumer.client (Consumer (this s')) = [].
Proof.
  do 3 eexists. split; [vm_compute; reflexivity|].
  split; [vm_compute; reflexivity|]. split; [done|].
  intros sched' s' Hexec.
  eapply (consumer_invariant
            (λ c, Consumer.nothing_downstream c
                  ∧ Consumer.ConsumerCh c = [[Build_BatchItems 1 (PVal "a")]]))
    in Hexec as [[] Hch].
  - split; [done|]. split; [|done].
    unfold Consumer.supplied. clear -nd_supplies.
    induction nd_supplies as [|g gs Hg _ IH]; [done|].
    rewrite bind_cons, Hg, IH. done.
  - intros a c c' [Hnd Hch] H. split.
    + by eapply ConsumerFacts.nothing_downstream_step.
    + rewrite <- Hch. eapply ConsumerFacts.ConsumerCh_kept; [done| |done].
      by rewrite Hch.
  - split; [|done]. split; simpl; try done; by repeat constructor.
Qed.

(** *** The order of the items of a batch *)

(** A step creates no batch other than by extending the window with
    the item just received on [Watcher]. *)
Lemma batches_step a s s' bt :
  step a s = Some s' → bt ∈ all_batches s' →
  bt ∈ all_batches s ∨ bt = []
  ∨ ∃ g x, a = WatcherRecv g ∧ forwards s !! g = Some (FwdSend x)
           ∧ bt = items s ++ [x].
Proof.
  intros H. step_cases H; unfold goto in *;
    unfold WatchProducer_recv, log_remaining, ReadItems_recv in *;
    repeat case_bool_decide; repeat case_match; simpl in *;
    unfold all_batches, assembler_held; simpl;
    ConsumerFacts.use_insert drain_held; rewrite ?bind_app;
    repeat match goal with
           | E : assembler s = _ |- _ => rewrite E; clear E
           | E : items s = _ |- _ => rewrite E; clear E
           | E : drain_at _ = _ |- _ => unfold drain_held; rewrite E; clear E
           end; csimpl;
    repeat first [rewrite elem_of_app|rewrite elem_of_cons|rewrite elem_of_nil];
    repeat match goal with
           | Hc : Consumer.step _ _ = Some _ |- _ =>
               let Hm := fresh "Hm" in
               pose proof (ConsumerFacts.step_everywhere _ _ _ bt Hc) as Hm;
               clear Hc; simpl in Hm;
               repeat first [rewrite elem_of_cons in Hm|rewrite elem_of_nil in Hm]
           end;
    try tauto;
    intros Hbt; destruct_or!; first [tauto|right; right; by exists g, x].
Qed.

(** Only a receive on [Watcher] changes what has been handed over. *)
Lemma handed_step a s s' :
  step a s = Some s' → watcher_recv a = None → handed s' = handed s.
Proof.
  intros H Ha. step_cases H; try discriminate Ha; unfold goto in *;
    unfold WatchProducer_recv, log_remaining, ReadItems_recv in *;
    repeat case_bool_decide; repeat case_match; simpl in *;
    unfold handed; simpl; try done.
  - rewrite omap_app. simpl. by rewrite (right_id_L [] (++)).
  - rewrite omap_app. simpl. by rewrite (right_id_L [] (++)).
  - by eapply omap_insert_None.
Qed.

Lemma handed_recv g s s' :
  step (WatcherRecv g) s = Some s' →
  (∀ j x, forwards s !! j = Some (FwdDone x) → (j < g)%nat) →
  ∃ x, forwards s !! g = Some (FwdSend x) ∧ handed s' = handed s ++ [x].
Proof.
  intros H Hbefore. step_cases H. eexists. split; [done|].
  assert (handed (WatchProducer_recv x (set_forwards (<[g:=FwdDone x]> (forwards s)) s))
          = omap handed_by (<[g:=FwdDone x]> (forwards s))) as ->.
  { unfold WatchProducer_recv. by case_bool_decide. }
  eapply omap_insert_last; [done..|].
  intros j w Hj Hw. destruct w as [| |y]; try done.
  apply Hbefore in Hw. lia.
Qed.

(** A goroutine is done only after the producer received from it. *)
Lemma done_step a s s' g x :
  step a s = Some s' → forwards s' !! g = Some (FwdDone x) →
  forwards s !! g = Some (FwdDone x) ∨ a = WatcherRecv g.
Proof.
  intros H. step_cases H; unfold goto in *;
    unfold WatchProducer_recv, log_remaining, ReadItems_recv in *;
    repeat case_bool_decide; repeat case_match; simpl in *; auto;
    intros Hg;
    first [ apply lookup_snoc_Some in Hg as [(? & Hg)|(? & ?)]; [by left|done]
          | apply list_lookup_insert_Some in Hg as [(<- & ? & ?)|(? & Hg)];
            [try done; by right|by left] ].
Qed.

Lemma done_exec sched s s' g x :
  exec sched s = Some s' → forwards s' !! g = Some (FwdDone x) →
  forwards s !! g = Some (FwdDone x) ∨ g ∈ watcher_order sched.
Proof.
  revert s. induction sched as [|a sched IH]; intros s H Hg.
  - simplify_eq/=. by left.
  - simpl in H. destruct (step a s) as [s1|] eqn:E; [|done].
    destruct (IH _ H Hg) as [Hg1|Hin].
    + destruct (done_step _ _ _ _ _ E Hg1) as [?| ->]; [by left|].
      right. unfold watcher_order. simpl. apply elem_of_cons. by left.
    + right. unfold watcher_order. simpl.
      destruct (watcher_recv a); [apply elem_of_cons; by right|done].
Qed.

(** The forwarding goroutines are listed in the order [ReadItems]
    received their items. *)
Lemma forwards_step a s s' :
  step a s = Some s' →
  ∃ r, payload_of <$> forwards s' = (payload_of <$> forwards s) ++ r
       ∧ r `sublist_of` option_list (received_by a).
Proof.
  intros H. step_cases H; unfold goto in *;
    unfold WatchProducer_recv, log_remaining, ReadItems_recv in *;
    repeat case_bool_decide; repeat case_match; simpl in *;
    try (exists []; split; [by rewrite (right_id_L [] (++))|apply sublist_nil_l]);
    try (eexists; split; [by rewrite fmap_app|done]);
    exists []; (split; [|apply sublist_nil_l]);
    rewrite (right_id_L [] (++)), list_fmap_insert; simpl;
    apply list_insert_id; by rewrite list_lookup_fmap;
    match goal with E : forwards s !! _ = Some _ |- _ => rewrite E end.
Qed.

Lemma forwards_exec sched s s' :
  exec sched s = Some s' →
  ∃ r, payload_of <$> forwards s' = (payload_of <$> forwards s) ++ r
       ∧ r `sublist_of` received sched.
Proof.
  revert s. induction sched as [|a sched IH]; intros s H.
  - simplify_eq/=. exists []. by rewrite (right_id_L [] (++)).
  - simpl in H. destruct (step a s) as [s1|] eqn:E; [|done].
    destruct (IH _ H) as (r2 & -> & Hr2).
    destruct (forwards_step _ _ _ E) as (r1 & -> & Hr1).
    exists (r1 ++ r2). split; [by rewrite (assoc_L (++))|].
    unfold received. simpl.
    change (omap received_by sched) with (received sched).
    destruct (received_by a); simpl in *.
    + by apply (sublist_app r1 [p]).
    + apply sublist_nil_r in Hr1 as ->. done.
Qed.

Lemma handed_payloads (fs : list forward_pc) :
  payload <$> omap handed_by fs `sublist_of` payload_of <$> fs.
Proof.
  induction fs as [|[| |x] fs IH]; simpl; [done|by constructor..].
Qed.

Lemma window_in_batches s : items s ∈ all_batches s.
Proof. apply elem_of_cons. by left. Qed.

(** What was received on [Watcher] grows with the schedule. *)
Lemma watched_snoc sched a s s1 s2 :
  exec sched s = Some s1 → step a s1 = Some s2 →
  watched (sched ++ [a]) s = watched sched s ++ option_list (watcher_item a s1).
Proof.
  revert s. induction sched as [|a0 sched IH]; intros s H1 H2.
  - simplify_eq/=. rewrite H2. by rewrite (right_id_L [] (++)).
  - simpl in *. destruct (step a0 s) as [s0|] eqn:E; [|done]. simpl in H1.
    rewrite (IH _ H1 H2). by rewrite (assoc_L (++)).
Qed.

(** Whatever the interleaving, a batch lists its items in the order the
    producer received them. *)
Lemma watcher_order_kept b sched s bt :
  Consumer b = Consumer.NewBatchConsumer →
  exec sched (start b []) = Some s →
  bt ∈ all_batches s → bt `sublist_of` watched sched (start b []).
Proof.
  intros Hc. revert s bt.
  induction sched as [|a sched IH] using rev_ind; intros s bt Hexec Hbt.
  - simplify_eq/=. unfold all_batches in Hbt. simpl in Hbt. rewrite Hc in Hbt.
    apply list_elem_of_singleton in Hbt as ->. apply sublist_nil_l.
  - rewrite run_app in Hexec.
    destruct (exec sched (start b [])) as [s1|] eqn:E1; [|done].
    simpl in Hexec. destruct (step a s1) as [s2|] eqn:E2; [|done].
    simplify_eq/=. rewrite (watched_snoc _ _ _ _ _ E1 E2).
    pose proof (λ bt', IH s1 bt' eq_refl) as IH'. clear IH.
    destruct (batches_step _ _ _ _ E2 Hbt) as [Hold|[->|(g & x & -> & Hg & ->)]].
    + apply sublist_inserts_r. by apply IH'.
    + apply sublist_nil_l.
    + simpl. rewrite Hg. simpl. apply sublist_app; [|done].
      apply IH', window_in_batches.
Qed.

(** When the goroutines reach the producer in the order they were
    started, what it received is what was handed over, listed in the
    order of the goroutines. *)
Lemma watched_in_order b sched s :
  exec sched (start b []) = Some s →
  StronglySorted lt (watcher_order sched) →
  watched sched (start b []) = handed s.
Proof.
  revert s.
  induction sched as [|a sched IH] using rev_ind; intros s Hexec Hsorted.
  - by simplify_eq/=.
  - rewrite run_app in Hexec.
    destruct (exec sched (start b [])) as [s1|] eqn:E1; [|done].
    simpl in Hexec. destruct (step a s1) as [s2|] eqn:E2; [|done].
    simplify_eq/=. rewrite (watched_snoc _ _ _ _ _ E1 E2).
    unfold watcher_order in Hsorted. rewrite omap_app in Hsorted.
    rewrite (IH s1 eq_refl (StronglySorted_app_1_l _ _ _ Hsorted)).
    destruct (watcher_recv a) as [g|] eqn:Ha.
    + destruct a; simplify_eq/=.
      destruct (handed_recv g s1 s E2) as (x & Hg & ->).
      { intros j y Hj.
        destruct (done_exec _ _ _ _ _ E1 Hj) as [Hj0|Hin]; [done|].
        apply (StronglySorted_app_1_elem_of _ _ _ j g Hsorted); [done|].
        apply list_elem_of_singleton. done. }
      by rewrite Hg.
    + rewrite (handed_step _ _ _ E2 Ha).
      destruct a; simplify_eq/=; by rewrite (right_id_L [] (++)).
Qed.

(** C5, as amended.  In every batch of the pipeline, sealed or not,
    and along every schedule, the items appear in the order in which
    the producer received them on [Watcher].  Along the schedules in
    which the forwarding goroutines reach the producer in the order
    they were started, this is the order in which the items were
    submitted: what the producer received is then the list of the
    tagged items handed over, in submission order, so every batch is a
    subsequence of it, and its payloads are a subsequence of the
    submitted ones. *)
Theorem batch_keeps_handoff_order b sched s bt :
  Consumer b = Consumer.NewBatchConsumer →
  exec sched (start b []) = Some s →
  bt ∈ all_batches s →
  bt `sublist_of` watched sched (start b [])
  ∧ (StronglySorted lt (watcher_order sched) →
     watched sched (start b []) = handed s
     ∧ bt `sublist_of` handed s
     ∧ payload <$> bt `sublist_of` received sched).
Proof.
  intros Hc Hexec Hbt.
  pose proof (watcher_order_kept _ _ _ _ Hc Hexec Hbt) as Hsub.
  split; [done|]. intros Hsorted.
  pose proof (watched_in_order _ _ _ Hexec Hsorted) as Hw.
  split; [done|]. rewrite Hw in Hsub. split; [done|].
  destruct (forwards_exec _ _ _ Hexec) as (r & Hr & Hrs). simpl in Hr.
  transitivity (payload <$> handed s); [by apply fmap_sublist|].
  transitivity (payload_of <$> forwards s); [apply handed_payloads|].
  by rewrite Hr.
Qed.

Lemma batch_keeps_handoff_order_witness :
  let bt := [Build_BatchItems 1 (PVal "a"); Build_BatchItems 2 (PVal "b")] in
  bt `sublist_of` watched in_order (start (demo_batch 2) [])
  ∧ watched in_order (start (demo_batch 2) []) = handed after_in_order
  ∧ bt `sublist_of` handed after_in_order
  ∧ payload <$> bt `sublist_of` received in_order.
Proof.
  destruct (batch_keeps_handoff_order (demo_batch 2) in_order after_in_order
              [Build_BatchItems 1 (PVal "a"); Build_BatchItems 2 (PVal "b")])
    as [Hany Hsorted].
  - reflexivity.
  - vm_compute; reflexivity.
  - assert (all_batches after_in_order
            = [[]; [Build_BatchItems 1 (PVal "a"); Build_BatchItems 2 (PVal "b")]])
      as -> by (vm_compute; reflexivity).
    apply elem_of_cons. right. apply elem_of_cons. by left.
  - split; [exact Hany|]. apply Hsorted. repeat constructor.
Defined.

(** C5 as stated fails: "a" is submitted before "b", the goroutine
    forwarding "b" reaches the producer first, and the batch that is
    flushed holds "b" before "a", with decreasing identifiers. *)
Lemma overtaking_reverses_a_batch :
  ∃ b items1 s,
    NewBatch 100 30000000000 4096 [Producer.WithMaxItems 2]
             {| elems := []; cap := 0 |} = Some (b, items1)
    ∧ exec overtaking (start b (elems items1)) = Some s
    ∧ received overtaking = [PVal "a"; PVal "b"]
    ∧ Consumer.ConsumerCh (Consumer (this s))
      = [[Build_BatchItems 2 (PVal "b"); Build_BatchItems 1 (PVal "a")]].
Proof.
  do 3 eexists. split; [vm_compute; reflexivity|].
  split; [vm_compute; reflexivity|]. done.
Qed.

(** *** A single call of [Close] *)

Lemma closes_grow a s s' :
  step a s = Some s' → (length (closes s) ≤ length (closes s'))%nat.
Proof.
  intros H. step_cases H; unfold goto in *;
    unfold WatchProducer_recv, log_remaining, ReadItems_recv in *;
    repeat case_bool_decide; repeat case_match; simpl in *;
    rewrite ?length_insert, ?length_app; simpl; lia.
Qed.

Lemma single_close_inv_step a s s' :
  single_close_inv s → step a s = Some s' → single_close_inv s'.
Proof.
  intros Hinv H Hlen. pose proof (closes_grow _ _ _ H) as Hgrow.
  destruct Hinv as (Hp & Hnil & Hone); [lia|].
  destruct (closes s) as [|call [|call' rest]] eqn:Hcl; [| |simpl in *; lia].
  - clear Hone. specialize (Hnil eq_refl).
    step_cases H; unfold goto in *;
      unfold WatchProducer_recv, log_remaining, ReadItems_recv in *;
      repeat case_bool_decide; repeat case_match; simpl in *;
      rewrite ?Hcl in *; simpl in *; simplify_eq; try congruence;
      (split; [try done; congruence|split; [try done; congruence|]]);
      try (intros ? [= <-]; simpl; split; [done|congruence]);
      try done.
  - clear Hnil. destruct (Hone call eq_refl) as [Hsel Hclosed]. clear Hone.
    step_cases H; unfold goto in *;
      unfold WatchProducer_recv, log_remaining, ReadItems_recv in *;
      repeat case_bool_decide; repeat case_match; simpl in *;
      rewrite ?Hcl in *; simpl in *;
      repeat match goal with
             | Hl : [call] !! ?k = Some _ |- _ =>
                 destruct k; simpl in Hl; [|done]; simplify_eq
             end; simpl in *; try lia;
      try (destruct Hclosed as [? [?|?]]; [done|congruence..]);
      (split; [try done; congruence|split; [try done; congruence|]]);
      intros ? [= <-];
      repeat match goal with c : close_call |- _ => destruct c as [? ?] end;
      simpl in *; subst;
      (split; [intros Hne|intros HI]);
      try congruence;
      try (destruct Hclosed as [? [?|?]]; [congruence|..]);
      try (split; [|by auto]);
      try congruence; try (apply Hsel; congruence);
      try (specialize (Hsel Hne); congruence).
Qed.

Lemma single_close_inv_exec b items0 sched s :
  Item b = Open →
  exec sched (start b items0) = Some s → single_close_inv s.
Proof.
  intros Hopen. apply run_invariant; [apply single_close_inv_step|].
  intros _. split; [done|]. split; [done|]. by intros call.
Qed.

(** C4, as amended.  [Close] has no already-closed guard and reports
    nothing.  In a run with a single call of [Close], closing [b.Item]
    never panics.  Whenever a call is at line 105 and [b.Item] is
    already closed, its next step is the panic for closing a closed
    channel. *)
Theorem Close_is_not_guarded b items0 sched s :
  Item b = Open →
  exec sched (start b items0) = Some s →
  ((length (closes s) ≤ 1)%nat → panicked s ≠ Some CloseOfClosedChannel)
  ∧ (∀ k call, closes s !! k = Some call → close_at call = ClCloseItem →
       Item (this s) = Closed → panicked s = None →
       Consumer.exited (Consumer (this s)) = None →
       step (CloseItem k) s = Some (set_panicked (Some CloseOfClosedChannel) s)).
Proof.
  intros Hopen Hexec. split.
  - intros Hlen. by destruct (single_close_inv_exec _ _ _ _ Hopen Hexec Hlen).
  - intros k call Hk Hat Hcl Hp Hx. unfold step, close_step.
    rewrite Hp, Hx, Hk. rewrite decide_True by done. by rewrite Hcl.
Qed.

Lemma Close_never_returns_witness :
  let call := {| close_at := ClSelect; drain_at := DrainDone |} in
  close_at call ≠ ClReturned
  ∧ (close_at call = ClSelect → drain_at call = DrainDone →
     ∀ sched' s', exec sched' after_close_run = Some s' →
                  closes s' !! 0%nat = Some call).
Proof.
  apply (Close_never_returns (demo_batch 5) [] close_run after_close_run 0).
  - vm_compute; reflexivity.
  - vm_compute; reflexivity.
Defined.

Lemma Close_is_not_guarded_witness :
  ((length (closes after_close_run) ≤ 1)%nat →
   panicked after_close_run ≠ Some CloseOfClosedChannel)
  ∧ (∀ k call, closes after_close_run !! k = Some call →
       close_at call = ClCloseItem →
       Item (this after_close_run) = Closed → panicked after_close_run = None →
       Consumer.exited (Consumer (this after_close_run)) = None →
       step (CloseItem k) after_close_run
         = Some (set_panicked (Some CloseOfClosedChannel) after_close_run)).
Proof.
  apply (Close_is_not_guarded (demo_batch 5) [] close_run after_close_run).
  - vm_compute; reflexivity.
  - vm_compute; reflexivity.
Defined.

(** C4 as stated fails: a second call of [Close] is not a no-op; when
    it reaches [close(b.Item)] after the first call has closed the
    channel, the process panics. *)
Lemma second_Close_panics :
  ∃ b items1 s,
    NewBatch 100 30000000000 4096 [Producer.WithMaxItems 5]
             {| elems := []; cap := 0 |} = Some (b, items1)
    ∧ exec two_closes (start b (elems items1)) = Some s
    ∧ panicked s = Some CloseOfClosedChannel.
Proof.
  do 3 eexists. split; [vm_compute; reflexivity|].
  split; [vm_compute; reflexivity|]. done.
Qed.


(** C2, on the failing run.  Two items are received by [ReadItems]
    before either forwarding goroutine evaluates [b.Id]: both read the
    counter after the second increment, and both items are tagged 2.
    The identifiers assigned are not 1 and 2, and they repeat. *)
Theorem late_Id_reads_repeat_an_Id :
  ∃ b items1 s,
    NewBatch 100 30000000000 4096 [Producer.WithMaxItems 5]
             {| elems := []; cap := 0 |} = Some (b, items1)
    ∧ exec late_reads (start b (elems items1)) = Some s
    ∧ Id (this s) = 2
    ∧ tagged s = [Build_BatchItems 2 (PVal "a"); Build_BatchItems 2 (PVal "b")]
    ∧ ids (tagged s) = [2; 2].
Proof.
  do 3 eexists. split; [vm_compute; reflexivity|].
  split; [vm_compute; reflexivity|]. done.
Qed.

(** C3, on the failing run.  With [MaxItems = 1], two items are
    received by [ReadItems] before either forwarding goroutine
    evaluates [b.Id], so both are tagged 2.  Each is sealed as a batch
    of its own, routed, and claimed by a worker; two [GetBatchSupply]
    calls are waiting on their response channels at the same time.
    Each worker hands its batch to one of them, once, and each call
    passes its batch on to the client: the two callers have received
    batches that share the identifier 2. *)
Theorem two_callers_receive_the_same_Id :
  ∃ b items1 s1 s,
    NewBatch 100 30000000000 4096 [Producer.WithMaxItems 1]
             {| elems := []; cap := 0 |} = Some (b, items1)
    ∧ exec two_callers_waiting (start b (elems items1)) = Some s1
    ∧ received two_callers_waiting = [PVal "a"; PVal "b"]
    ∧ Consumer.supplies (Consumer (this s1)) = [Consumer.GSWait; Consumer.GSWait]
    ∧ exec two_callers_served s1 = Some s
    ∧ Consumer.supplies (Consumer (this s))
      = [Consumer.GSDone [Build_BatchItems 2 (PVal "a")];
         Consumer.GSDone [Build_BatchItems 2 (PVal "b")]]
    ∧ Consumer.client (Consumer (this s))
      = [[Build_BatchItems 2 (PVal "a")]; [Build_BatchItems 2 (PVal "b")]]
    ∧ ¬ ids_disjoint [Build_BatchItems 2 (PVal "a")] [Build_BatchItems 2 (PVal "b")].
Proof.
  do 4 eexists. split; [vm_compute; reflexivity|].
  split; [vm_compute; reflexivity|]. split; [done|]. split; [done|].
  split; [vm_compute; reflexivity|]. split; [done|]. split; [done|].
  intros Hdis.
  apply (Hdis (Build_BatchItems 2 (PVal "a")) (Build_BatchItems 2 (PVal "b")));
    [by apply list_elem_of_singleton..|done].
Qed.

End BatchFacts.

(** ** More on the consumer *)

Module ConsumerInvariants.
Import Consumer.

Lemma within_capacity_step a c c' :
  within_capacity c → step a c = Some c' → within_capacity c'.
Proof.
  intros [] H. ConsumerFacts.step_cases H; split; simpl;
    unfold has_room in *; repeat case_bool_decide;
    repeat match goal with
           | E : @eq (list _) _ _ |- _ => rewrite E in *; clear E
           end;
    rewrite ?length_app; simpl in *; try done; lia.
Qed.

Lemma within_capacity_exec sched c :
  exec sched NewBatchConsumer = Some c → within_capacity c.
Proof.
  apply ConsumerFacts.exec_invariant; [apply within_capacity_step|].
  split; simpl; unfold DefaultWorkerPool; lia.
Qed.

Lemma held_length (ws : list worker_pc) :
  (length (ws ≫= worker_held) ≤ length ws)%nat.
Proof.
  induction ws as [|w ws IH]; [done|].
  rewrite bind_cons, length_app. destruct w; simpl in *; lia.
Qed.

(** X1.  Bounded buffering.  Along every schedule each buffered
    channel of the consumer stays within the capacity [make] gave it,
    and the batches between [ConsumerFunc] and the response channels
    (in [ConsumerCh], in the routing loop's hands, in [BatchWorkerCh]
    and in the workers' hands) are never more than 22. *)
Theorem in_flight_is_bounded sched c :
  exec sched NewBatchConsumer = Some c →
  within_capacity c ∧ (length (in_flight c) ≤ 2 + 2 * DefaultWorkerPool)%nat.
Proof.
  intros Hexec. pose proof (within_capacity_exec _ _ Hexec) as Hcap.
  split; [done|]. destruct Hcap.
  pose proof (ConsumerFacts.starter_inv_exec _ _ Hexec) as [_ _ _ _ Hw].
  pose proof (held_length (workers c)).
  assert (length (workers c) ≤ DefaultWorkerPool)%nat.
  { rewrite Hw. destruct (starter c); lia. }
  unfold in_flight, routing_held. rewrite !length_app.
  unfold DefaultWorkerPool in *. destruct (routing c); simpl; lia.
Qed.

Lemma in_flight_is_bounded_witness :
  within_capacity after_two_batches
  ∧ (length (in_flight after_two_batches) ≤ 2 + 2 * DefaultWorkerPool)%nat.
Proof.
  apply (in_flight_is_bounded two_batches after_two_batches).
  vm_compute; reflexivity.
Defined.

(** *** Closing [BatchWorkerCh] *)

Lemma elem_of_insert_inv {A} (l : list A) i x y :
  x ∈ <[i:=y]> l → x = y ∨ x ∈ l.
Proof.
  intros [j Hj]%list_elem_of_lookup.
  apply list_lookup_insert_Some in Hj as [(_ & <- & _)|(_ & Hj)]; [by left|].
  right. by eapply list_elem_of_lookup_2.
Qed.

Lemma closing_inv_step a c c' :
  closing_inv c → step a c = Some c' → closing_inv c'.
Proof.
  intros [Hcl Hdone] H. ConsumerFacts.step_cases H; split; simpl;
    repeat match goal with
           | E : routing c = _ |- _ => rewrite E in *; clear E
           | E : BatchWorkerCh c = _ |- _ => rewrite E in *; clear E
           | E : BatchWorkerCh_closed c = _ |- _ => rewrite E in *; clear E
           end;
    try done;
    try (intros [?|Hin]%elem_of_insert_inv; [done|]);
    try (intros Hin);
    try (destruct (Hdone Hin) as [? ?]; try done; try congruence);
    try (split; [intros; congruence|intros; try congruence; try done]).
  all: try (destruct Hcl as [Hcl1 Hcl2];
            first [by specialize (Hcl1 eq_refl)|by specialize (Hcl2 eq_refl)]).
  all: try (split; intros Hx; [apply Hcl in Hx|]; discriminate).
  all: try match goal with
           | Hc : BatchWorkerCh_closed _ = true, Hl : _ ↔ _ |- _ =>
               exfalso; apply Hl in Hc; discriminate
           end.
  apply elem_of_app in Hin as [Hin|Hin]; [by apply Hdone|]. exfalso.
  repeat (apply elem_of_cons in Hin as [?|Hin]; [done|]).
  by apply elem_of_nil in Hin.
Qed.

Lemma closing_inv_exec sched c :
  exec sched NewBatchConsumer = Some c → closing_inv c.
Proof.
  apply ConsumerFacts.exec_invariant; [apply closing_inv_step|].
  split; simpl; [done|]. intros Hin. by apply elem_of_nil in Hin.
Qed.



(** *** The wait group *)

Lemma sum_insert {A} (f : A → nat) (l : list A) i x y :
  l !! i = Some x →
  (sum_list_with f (<[i:=y]> l) + f x = sum_list_with f l + f y)%nat.
Proof.
  revert i. induction l as [|a l IH]; intros [|i] Hi; simplify_eq/=; [lia|].
  specialize (IH i Hi). lia.
Qed.

Lemma Workerline_step a c c' :
  Workerline c = running_workers c → step a c = Some c' →
  Workerline c' = running_workers c'.
Proof.
  intros Hw H. ConsumerFacts.step_cases H; unfold running_workers in *; simpl;
    try done;
    try (match goal with
         | Hl : workers c !! ?i = Some ?x |- context [<[?i:=?y]> (workers c)] =>
             pose proof (sum_insert running (workers c) i x y Hl); simpl in *; lia
         end).
  all: try congruence.
  rewrite sum_list_with_app. unfold DefaultWorkerPool in *. simpl. lia.
Qed.

(** X3.  The wait group counts the workers that are still running.
    Along every schedule the counter of [Workerline], raised by
    [Add(DefaultWorkerPool)] and lowered by each worker's deferred
    [Done], equals the number of workers that have not returned; it
    never goes below zero, and it is zero exactly when every worker has
    returned. *)
Theorem Workerline_counts_running_workers sched c :
  exec sched NewBatchConsumer = Some c →
  Workerline c = running_workers c
  ∧ (Workerline c = 0%nat ↔ Forall (λ w, w = WDone) (workers c)).
Proof.
  intros Hexec.
  assert (Workerline c = running_workers c) as Hw.
  { revert Hexec. apply (ConsumerFacts.exec_invariant
      (λ c, Workerline c = running_workers c)); [apply Workerline_step|done]. }
  split; [done|]. rewrite Hw. unfold running_workers. clear.
  induction (workers c) as [|w ws IH]; simpl.
  - split; [by constructor|done].
  - rewrite Forall_cons. destruct w; simpl; split; try lia; naive_solver lia.
Qed.

Lemma Workerline_counts_running_workers_witness :
  Workerline after_quit_run = running_workers after_quit_run
  ∧ (Workerline after_quit_run = 0%nat
     ↔ Forall (λ w, w = WDone) (workers after_quit_run)).
Proof.
  apply (Workerline_counts_running_workers quit_run after_quit_run).
  vm_compute; reflexivity.
Defined.

(** *** Signals *)

Lemma quiet_step a c c' :
  quiet c → step a c = Some c' → raised a = [] → quiet c'.
Proof.
  intros (Ht & Hc & He & Hs) H Ha. unfold quiet.
  ConsumerFacts.step_cases H; simpl in *; try done;
    repeat match goal with
           | E : starter c = _ |- _ => rewrite E in *; clear E
           | E : TerminateCh c = _ |- _ => rewrite E in *; clear E
           end;
    try done; try (by destruct Hs); auto.
Qed.

(** X4.  The consumer exits on a termination signal only.  Along every
    schedule in which no SIGINT or SIGTERM is delivered, the process
    has not exited, the context of the routing loop is not cancelled,
    and [StartConsumer] is no further than [<-c.TerminateCh]. *)
Theorem no_exit_without_signal sched c :
  exec sched NewBatchConsumer = Some c →
  signals sched = [] →
  exited c = None ∧ ctx_done c = false
  ∧ (starter c = SCInit ∨ starter c = SCWaitSignal).
Proof.
  intros Hexec Hsig.
  assert (quiet c) as (_ & ? & ? & ?); [|done].
  assert (quiet NewBatchConsumer) as Hq by (repeat split; by left).
  revert Hexec Hsig Hq. generalize NewBatchConsumer. revert c.
  induction sched as [|a sched IH]; intros c c0 Hexec Hsig Hq.
  - by simplify_eq/=.
  - simpl in Hexec. destruct (step a c0) as [c1|] eqn:E; [|done].
    unfold signals in Hsig. rewrite bind_cons in Hsig.
    apply app_eq_nil in Hsig as [Ha Hs].
    eapply IH; [done..|]. by eapply quiet_step.
Qed.

Lemma no_exit_without_signal_witness :
  exited after_delivery = None ∧ ctx_done after_delivery = false
  ∧ (starter after_delivery = SCInit ∨ starter after_delivery = SCWaitSignal).
Proof.
  apply (no_exit_without_signal delivery after_delivery).
  - vm_compute; reflexivity.
  - vm_compute; reflexivity.
Defined.

(** *** Stop requests *)

Lemma quit_credit_step a c c' :
  step a c = Some c' →
  (quit_credit c + stop_request a ≤ quit_credit c')%nat.
Proof.
  intros H. ConsumerFacts.step_cases H; unfold quit_credit; simpl;
    repeat match goal with
           | E : routing c = _ |- _ => rewrite E in *; clear E
           | E : Quit c = _ |- _ => rewrite E in *; clear E
           end;
    rewrite ?length_app; simpl; try lia;
    destruct (routing c); simpl; lia.
Qed.

Lemma quit_credit_exec sched c c' :
  exec sched c = Some c' →
  (quit_credit c + stop_requests sched ≤ quit_credit c')%nat.
Proof.
  revert c. induction sched as [|a sched IH]; intros c H.
  - simplify_eq/=. unfold stop_requests. simpl. lia.
  - simpl in H. destruct (step a c) as [c1|] eqn:E; [|done].
    pose proof (quit_credit_step _ _ _ E). pose proof (IH _ H).
    unfold stop_requests in *. simpl. lia.
Qed.

(** X5.  At most two stop requests get through.  [Quit] has room for
    one value and [ConsumerBatch] returns after taking one, so along
    every schedule no more than two sends of [StopConsumer] complete;
    any further call blocks for good. *)
Theorem at_most_two_stop_requests sched c :
  exec sched NewBatchConsumer = Some c →
  (stop_requests sched ≤ 2)%nat.
Proof.
  intros Hexec. pose proof (quit_credit_exec _ _ _ Hexec) as Hc.
  pose proof (within_capacity_exec _ _ Hexec) as [].
  unfold quit_credit in *. simpl in Hc. destruct (routing c); lia.
Qed.

Lemma at_most_two_stop_requests_witness : (stop_requests quit_run ≤ 2)%nat.
Proof.
  apply (at_most_two_stop_requests quit_run after_quit_run).
  vm_compute; reflexivity.
Defined.

(** *** Up to the client *)

Lemma located_step a c c' :
  step a c = Some c' → located c' ≡ₚ accepted_by a ++ located c.
Proof.
  intros H. ConsumerFacts.step_cases H;
    unfold located, in_flight, routing_held; simpl;
    ConsumerFacts.use_insert worker_held; ConsumerFacts.use_insert supply_holds;
    rewrite ?bind_app;
    repeat match goal with
           | E : routing c = _ |- _ => rewrite E; clear E
           | E : ConsumerCh c = _ |- _ => rewrite E; clear E
           | E : BatchWorkerCh c = _ |- _ => rewrite E; clear E
           | E : ClientSupplyCh _ = _ |- _ => rewrite E; clear E
           end; csimpl; solve_Permutation.
Qed.

(** X6.  Nothing is duplicated on the way to the client.  Along every
    schedule the batches handed over by [ConsumerFunc] are, as a
    multiset, exactly those in the channels, in the hands of the
    routing loop, of a worker or of a [GetBatchSupply] call, and those
    the client has read from [ClientSupplyCh]; so what the client has
    read contains no batch more often than it was handed over. *)
Theorem client_gets_each_batch_once sched c :
  exec sched NewBatchConsumer = Some c →
  located c ≡ₚ accepted sched ∧ client c ⊆+ accepted sched.
Proof.
  intros Hexec.
  assert (∀ c0 c1, exec sched c0 = Some c1 →
                   located c1 ≡ₚ accepted sched ++ located c0) as Hgen.
  { clear. induction sched as [|a sched IH]; intros c0 c1 H.
    - by simplify_eq/=.
    - simpl in H. destruct (step a c0) as [c2|] eqn:E; [|done].
      rewrite (IH _ _ H), (located_step _ _ _ E).
      unfold accepted. rewrite bind_cons. solve_Permutation. }
  specialize (Hgen _ _ Hexec).
  change (located NewBatchConsumer) with (@nil batch) in Hgen.
  rewrite (right_id_L [] (++)) in Hgen. split; [done|].
  rewrite <- Hgen. unfold located.
  rewrite !(assoc_L (++)). apply submseteq_inserts_l. done.
Qed.

Lemma client_gets_each_batch_once_witness :
  located after_delivery ≡ₚ accepted delivery
  ∧ client after_delivery ⊆+ accepted delivery.
Proof.
  apply (client_gets_each_batch_once delivery after_delivery).
  vm_compute; reflexivity.
Defined.

(** *** After the routing loop *)

Lemma returned_step a c c' :
  routing c = CBReturned → step a c = Some c' →
  routing c' = CBReturned ∧ ConsumerCh c `prefix_of` ConsumerCh c'.
Proof.
  intros Hr H. ConsumerFacts.step_cases H; simpl; try congruence;
    (split; [done|]); try done.
  by apply prefix_app_r.
Qed.

(** X7.  What arrives after the routing loop is never read.  Once
    [ConsumerBatch] has returned, whether on [Quit] or on the cancelled
    context, it stays returned and nothing is ever taken from
    [ConsumerCh] again: along every further schedule the channel still
    begins with the batches it held. *)
Theorem ConsumerCh_is_not_read_after_return sched c c' :
  routing c = CBReturned →
  exec sched c = Some c' →
  routing c' = CBReturned ∧ ConsumerCh c `prefix_of` ConsumerCh c'.
Proof.
  revert c. induction sched as [|a sched IH]; intros c Hr H.
  - by simplify_eq/=.
  - simpl in H. destruct (step a c) as [c1|] eqn:E; [|done].
    destruct (returned_step _ _ _ Hr E) as [Hr1 Hp1].
    destruct (IH _ Hr1 H) as [Hr2 Hp2]. split; [done|]. by etrans.
Qed.

Lemma ConsumerCh_is_not_read_after_return_witness :
  let late := [ConsumerFunc [{| Id := 1; Item := PVal "a" |}]; WorkerExit 0] in
  let c' := default after_late_batch (exec late after_late_batch) in
  routing c' = CBReturned ∧ ConsumerCh after_late_batch `prefix_of` ConsumerCh c'.
Proof.
  apply (ConsumerCh_is_not_read_after_return
           [ConsumerFunc [{| Id := 1; Item := PVal "a" |}]; WorkerExit 0]
           after_late_batch).
  - vm_compute; reflexivity.
  - vm_compute; reflexivity.
Defined.

(** *** Response channels *)

Ltac slot_insert Hnd Hall :=
  repeat match goal with
         | Hl : workers ?c !! ?i = Some ?x |- context [<[?i:=?y]> (workers ?c) ≫= taken_slot] =>
             let k := fresh "k" in
             let E1 := fresh "E" in
             let E2 := fresh "E" in
             destruct (ConsumerFacts.bind_insert taken_slot (workers c) i x y Hl)
               as (k & E1 & E2);
             rewrite ?E2; rewrite E1 in Hnd, Hall; clear E1 E2
         end.

Lemma slots_inv_step a c c' :
  slots_inv c → step a c = Some c' → slots_inv c'.
Proof.
  intros [Hnd Hall] H. unfold slots_inv, open_slots in *.
  ConsumerFacts.step_cases H; simpl; slot_insert Hnd Hall;
    rewrite ?bind_app;
    repeat match goal with
           | E : BatchSupplyCh _ = _ |- _ => rewrite E in *; clear E
           end; csimpl in *; try done.
  - rewrite (right_id_L [] (++)). done.
  - split; [done|]. eapply Forall_impl; [exact Hall|].
    intros s Hs. by apply lookup_app_l_Some.
  - rewrite <- Permutation_middle. done.
  - rewrite <- Permutation_middle in Hnd, Hall.
    apply NoDup_cons in Hnd as [Hslot Hnd].
    apply Forall_cons in Hall as [_ Hall]. split; [done|].
    apply Forall_forall. intros s0 Hs0.
    rewrite list_lookup_insert_ne by (intros ->; done).
    by eapply Forall_forall in Hall.
  - assert (r ∉ BatchSupplyCh (Supply c) ++ workers c ≫= taken_slot) as Hr.
    { intros Hin. eapply Forall_forall in Hall; [|exact Hin]. congruence. }
    rewrite <- (assoc_L (++)). simpl. rewrite <- Permutation_middle.
    split; [by apply NoDup_cons|].
    apply Forall_cons. split.
    + apply list_lookup_insert_eq. by eapply lookup_lt_Some.
    + apply Forall_forall. intros s0 Hs0.
      rewrite list_lookup_insert_ne by (intros ->; done).
      by eapply Forall_forall in Hall.
  - split; [done|]. apply Forall_forall. intros s0 Hs0.
    eapply Forall_forall in Hall; [|exact Hs0].
    rewrite list_lookup_insert_ne; [done|]. intros ->. congruence.
Qed.

Lemma slots_inv_exec sched c :
  exec sched NewBatchConsumer = Some c → slots_inv c.
Proof.
  apply ConsumerFacts.exec_invariant; [apply slots_inv_step|].
  split; [apply NoDup_nil_2|apply Forall_nil_2].
Qed.

(** X8.  A worker's send on the response channel does not block.
    Along every schedule the response channels advertised on
    [BatchSupplyCh] or taken by a worker are pairwise different, and
    the [GetBatchSupply] call of each is waiting on it.  So whenever a
    worker has taken a response channel, and the process has not
    exited, its send of the batch can be taken at once, and it is then
    back at the [range]. *)
Theorem worker_offer_is_enabled sched c i b slot :
  exec sched NewBatchConsumer = Some c →
  exited c = None →
  workers c !! i = Some (WOffer b slot) →
  ∃ c', step (WorkerOffer i) c = Some c'
        ∧ workers c' !! i = Some WRange
        ∧ supplies c' !! slot = Some (GSGot b).
Proof.
  intros [Hnd Hall]%slots_inv_exec Hex Hi.
  assert (supplies c !! slot = Some GSWait) as Hs.
  { eapply Forall_forall in Hall; [done|].
    unfold open_slots. apply elem_of_app. right.
    apply list_elem_of_bind. exists (WOffer b slot). split.
    - simpl. by apply list_elem_of_singleton.
    - by eapply list_elem_of_lookup_2. }
  eexists. split.
  { unfold step. rewrite Hex, Hi, Hs. reflexivity. }
  simpl. split.
  - apply list_lookup_insert_eq. by eapply lookup_lt_Some.
  - apply list_lookup_insert_eq. by eapply lookup_lt_Some.
Qed.


Lemma worker_offer_is_enabled_witness :
  ∃ c', step (WorkerOffer 0) after_offering = Some c'
        ∧ workers c' !! 0%nat = Some WRange
        ∧ supplies c' !! 0%nat = Some (GSGot [{| Id := 1; Item := PVal "a" |}]).
Proof.
  apply (worker_offer_is_enabled offering after_offering 0
           [{| Id := 1; Item := PVal "a" |}] 0).
  - vm_compute; reflexivity.
  - vm_compute; reflexivity.
  - vm_compute; reflexivity.
Defined.

(** *** From the claim of a batch to its hand-over *)

Lemma supplied_step a c c' :
  step a c = Some c' → supplied c' ≡ₚ offered_by a c ++ supplied c.
Proof.
  intros H. ConsumerFacts.step_cases H; unfold supplied, offered_by; simpl;
    ConsumerFacts.use_insert supply_got; rewrite ?bind_app;
    repeat match goal with
           | E : workers c !! _ = _ |- _ => rewrite E; clear E
           end; csimpl; solve_Permutation.
Qed.

Lemma requests_inv_step a c c' :
  requests_inv c → step a c = Some c' → requests_inv c'.
Proof.
  unfold requests_inv. intros Hinv H. ConsumerFacts.step_cases H; simpl;
    repeat match goal with
           | E : BatchSupplyCh _ = _ |- _ => rewrite E in *; clear E
           end;
    rewrite ?length_app, ?sum_list_with_app; simpl in *;
    repeat match goal with
           | Hl : ?l !! ?i = Some ?x |- context [sum_list_with ?f (<[?i:=?y]> ?l)] =>
               pose proof (sum_insert f l i x y Hl); clear Hl
           end;
    simpl in *; lia.
Qed.

Lemma requests_inv_exec sched c :
  exec sched NewBatchConsumer = Some c → requests_inv c.
Proof. apply ConsumerFacts.exec_invariant; [apply requests_inv_step|done]. Qed.

Lemma selecting_length (ws : list worker_pc) :
  (sum_list_with selecting ws ≤ length ws)%nat.
Proof. induction ws as [|[] ws IH]; simpl; lia. Qed.

(** The request of a call that has still to send it finds room on
    [BatchSupplyCh]. *)
Lemma request_has_room sched c r :
  exec sched NewBatchConsumer = Some c →
  supplies c !! r = Some GSNew →
  has_room 100 (BatchSupplyCh (Supply c)) = true.
Proof.
  intros Hexec Hr.
  pose proof (requests_inv_exec _ _ Hexec) as Hinv. unfold requests_inv in Hinv.
  pose proof (ConsumerFacts.starter_inv_exec _ _ Hexec) as [_ _ _ _ Hw].
  pose proof (selecting_length (workers c)) as Hsel.
  assert (length (workers c) ≤ DefaultWorkerPool)%nat as Hlen.
  { rewrite Hw. destruct (starter c); lia. }
  unfold has_room. apply bool_decide_eq_true_2.
  unfold DefaultWorkerPool in Hlen. lia.
Qed.

(** X13.  A claimed batch reaches exactly one call.  In every state
    the consumer reaches, as long as the process has not exited, a
    worker that has claimed a batch can carry on through lines 149 to
    153 of [WorkerFunc]: it starts a [GetBatchSupply] call, whose
    request finds room on [BatchSupplyCh]; it receives a response
    channel, on which a call is waiting; and its send is taken.  After
    that the worker is back at the [range] without the batch, one call
    holds it, and the batches received by calls are those received
    before and this one, once. *)
Theorem claimed_batch_reaches_one_call sched c i b :
  exec sched NewBatchConsumer = Some c →
  exited c = None →
  workers c !! i = Some (WClaimed b) →
  ∃ slot c',
    exec (hand_over i c) c = Some c'
    ∧ workers c' !! i = Some WRange
    ∧ supplies c' !! slot = Some (GSGot b)
    ∧ supplied c' ≡ₚ b :: supplied c.
Proof.
  intros Hexec Hex Hi.
  pose proof (lookup_lt_Some _ _ _ Hi) as Hlt.
  (* go c.GetBatchSupply() *)
  set (c1 := set_workers (<[i:=WSelect b]> (workers c))
               (set_supplies (supplies c ++ [GSNew]) c)).
  assert (step (WorkerSpawn i) c = Some c1) as E1.
  { unfold step. by rewrite Hex, Hi. }
  assert (exec (sched ++ [WorkerSpawn i]) NewBatchConsumer = Some c1) as R1.
  { rewrite ConsumerFacts.exec_app, Hexec. simpl. by rewrite E1. }
  (* the call's request *)
  set (r := length (supplies c)).
  assert (supplies c1 !! r = Some GSNew) as Hr by apply list_lookup_middle, eq_refl.
  set (c2 := set_supplies (<[r:=GSWait]> (supplies c1))
               (set_BatchSupplyCh (BatchSupplyCh (Supply c1) ++ [r]) c1)).
  assert (step (SupplyAdvertise r) c1 = Some c2) as E2.
  { unfold step, GetBatchSupply_request.
    rewrite (request_has_room _ _ _ R1 Hr), Hr. simpl. by rewrite Hex. }
  assert (exec (sched ++ [WorkerSpawn i; SupplyAdvertise r]) NewBatchConsumer
          = Some c2) as R2.
  { rewrite ConsumerFacts.exec_app, Hexec. simpl. rewrite E1. simpl. by rewrite E2. }
  (* supplyCh := <-c.Supply.BatchSupplyCh *)
  assert (workers c2 !! i = Some (WSelect b)) as Hi2.
  { simpl. by apply list_lookup_insert_eq. }
  assert (∃ slot q, BatchSupplyCh (Supply c2) = slot :: q) as (slot & q & Hq).
  { simpl. destruct (BatchSupplyCh (Supply c)); by eexists _, _. }
  set (c3 := set_workers (<[i:=WOffer b slot]> (workers c2))
               (set_BatchSupplyCh q c2)).
  assert (step (WorkerTake i) c2 = Some c3) as E3.
  { unfold step. rewrite Hi2, Hq. simpl. by rewrite Hex. }
  assert (exec (sched ++ [WorkerSpawn i; SupplyAdvertise r; WorkerTake i])
               NewBatchConsumer = Some c3) as R3.
  { rewrite ConsumerFacts.exec_app, Hexec. simpl. rewrite E1. simpl.
    rewrite E2. simpl. by rewrite E3. }
  (* supplyCh <- batch *)
  assert (workers c3 !! i = Some (WOffer b slot)) as Hi3.
  { simpl. apply list_lookup_insert_eq. by rewrite length_insert. }
  assert (supplies c3 !! slot = Some GSWait) as Hs.
  { destruct (slots_inv_exec _ _ R3) as [_ Hall].
    eapply Forall_forall in Hall; [exact Hall|].
    unfold open_slots. apply elem_of_app. right.
    apply list_elem_of_bind. exists (WOffer b slot). split.
    - simpl. by apply list_elem_of_singleton.
    - by eapply list_elem_of_lookup_2. }
  set (c4 := set_workers (<[i:=WRange]> (workers c3))
               (set_supplies (<[slot:=GSGot b]> (supplies c3)) c3)).
  assert (step (WorkerOffer i) c3 = Some c4) as E4.
  { unfold step. rewrite Hi3, Hs. simpl. by rewrite Hex. }
  exists slot, c4. split.
  { unfold hand_over. fold r. cbn [exec]. rewrite E1. cbn [mbind option_bind].
    rewrite E2. cbn [mbind option_bind]. rewrite E3. cbn [mbind option_bind].
    by rewrite E4. }
  split.
  { simpl. apply list_lookup_insert_eq. by rewrite !length_insert. }
  split.
  { simpl. apply list_lookup_insert_eq. by eapply lookup_lt_Some. }
  rewrite (supplied_step _ _ _ E4), (supplied_step _ _ _ E3),
    (supplied_step _ _ _ E2), (supplied_step _ _ _ E1).
  unfold offered_by. by rewrite Hi3.
Qed.

Lemma claimed_batch_reaches_one_call_witness :
  ∃ slot c',
    exec (hand_over 0 after_claiming) after_claiming = Some c'
    ∧ workers c' !! 0%nat = Some WRange
    ∧ supplies c' !! slot = Some (GSGot [{| Id := 2; Item := PVal "b" |}])
    ∧ supplied c' ≡ₚ [{| Id := 2; Item := PVal "b" |}] :: supplied after_claiming.
Proof.
  apply (claimed_batch_reaches_one_call claiming after_claiming 0
           [{| Id := 2; Item := PVal "b" |}]).
  - vm_compute; reflexivity.
  - vm_compute; reflexivity.
  - vm_compute; reflexivity.
Defined.

End ConsumerInvariants.

(** ** More on the orchestrator *)

Module BatchInvariants.
Import Batch.

Lemma wrap_int_small z : - 2^63 ≤ z < 2^63 → wrap_int z = z.
Proof.
  intros Hz. unfold wrap_int. rewrite Z.mod_small; lia.
Qed.

Lemma Id_inv_recv item s :
  Id_inv s → Id_inv (ReadItems_recv item s).
Proof.
  unfold Id_inv, ReadItems_recv. simpl. rewrite length_app. simpl.
  intros Hinv Hlen. destruct Hinv as [HId Hfw]; [lia|]. split.
  - rewrite HId, wrap_int_small; lia.
  - intros g f x [Hg|[-> <-]]%lookup_snoc_Some Hx; [|done].
    specialize (Hfw g f x (proj2 Hg) Hx). lia.
Qed.

Lemma Id_inv_step a s s' : Id_inv s → step a s = Some s' → Id_inv s'.
Proof.
  intros Hinv H.
  BatchFacts.step_cases H; try (by apply Id_inv_recv); unfold goto in *;
    unfold WatchProducer_recv, log_remaining in *;
    repeat case_bool_decide; repeat case_match; unfold Id_inv in *; simpl in *;
    rewrite ?length_insert; intros Hlen;
    try (by apply Hinv);
    destruct (Hinv Hlen) as [HId Hfw]; (split; [done|]);
    intros g0 f0 x0 [(<- & <- & Hlt)|(Hne & Hg0)]%list_lookup_insert_Some Hx;
    try (by eapply Hfw); simplify_eq/=.
  lia.
Qed.

(** X9.  Identifiers stay between the rank and the count.  With
    [b.Id] starting at 0 and fewer than [2^63] items received, along
    every schedule [b.Id] is the number of items [ReadItems] has
    received, and the identifier a forwarding goroutine has put on its
    item is greater than the number of items received before it and at
    most the number received so far: an item never gets an identifier
    smaller than its own rank, nor one that was not yet counted. *)
Theorem Id_between_rank_and_count b items0 sched s g f x :
  Id b = 0 →
  exec sched (start b items0) = Some s →
  Z.of_nat (length (forwards s)) < 2^63 →
  forwards s !! g = Some f → tagged_by f = Some x →
  Id (this s) = Z.of_nat (length (forwards s))
  ∧ Z.of_nat g < id_of x ≤ Id (this s).
Proof.
  intros Hb Hexec Hlen Hg Hx.
  assert (Id_inv s) as Hinv.
  { revert Hexec. apply BatchFacts.run_invariant; [apply Id_inv_step|].
    intros _. simpl. split; [done|]. by intros g0 f0 x0. }
  destruct (Hinv Hlen) as [HId Hfw]. split; [done|].
  rewrite HId. by eapply Hfw.
Qed.

Lemma Id_between_rank_and_count_witness :
  Id (this after_three_items) = Z.of_nat (length (forwards after_three_items))
  ∧ Z.of_nat 1 < id_of (Build_BatchItems 3 (PVal "b")) ≤ Id (this after_three_items).
Proof.
  apply (Id_between_rank_and_count (demo_batch 5) [] three_items after_three_items
           1 (FwdSend (Build_BatchItems 3 (PVal "b")))).
  - reflexivity.
  - vm_compute; reflexivity.
  - vm_compute; reflexivity.
  - vm_compute; reflexivity.
  - reflexivity.
Defined.

(** *** [ReadItems] on the closed channel *)



(** *** The semaphore of [Close] *)

Lemma sem_inv_step p a s s' : sem_inv p s → step a s = Some s' → sem_inv p s'.
Proof.
  intros (Hp & Hh & Hle) H. unfold sem_inv, in_sections in *.
  BatchFacts.step_cases H; unfold goto in *;
    unfold WatchProducer_recv, log_remaining, ReadItems_recv,
      Semaphore.Lock, Semaphore.Unlock in *;
    repeat case_bool_decide; repeat case_match; simplify_eq/=;
    try done;
    try (rewrite sum_list_with_app; simpl;
         rewrite Nat.add_0_r; done);
    match goal with
    | Hl : closes s !! ?k = Some ?c |- context [<[?k:=?y]> (closes s)] =>
        pose proof (ConsumerInvariants.sum_insert in_section (closes s) k c y Hl) as Hs;
        destruct c as [pc dr]; simpl in *; subst; simpl in Hs
    end;
    try (split; [done|]; split; lia).
Qed.

(** X11.  [Lock] and [Unlock] balance.  Starting with a free
    semaphore, along every schedule the permits in use are exactly the
    calls of [Close] between line 103 and line 106, never more than the
    capacity [NewBatch] gave the semaphore; so a call that is at its
    [Unlock] holds a permit, and the [Unlock] does not block. *)
Theorem Unlock_never_blocks b items0 sched s k call :
  Semaphore.held (Semaphore b) = 0 →
  exec sched (start b items0) = Some s →
  closes s !! k = Some call → close_at call = ClUnlock →
  panicked s = None → Consumer.exited (Consumer (this s)) = None →
  Semaphore.held (Semaphore (this s)) = Z.of_nat (in_sections s)
  ∧ Z.of_nat (in_sections s) ≤ Z.max 0 (Semaphore.permits (Semaphore b))
  ∧ ∃ s', step (CloseUnlock k) s = Some s'
          ∧ Semaphore.held (Semaphore (this s'))
            = Semaphore.held (Semaphore (this s)) - 1
          ∧ closes s' !! k = Some (set_close_at ClSelect call).
Proof.
  intros Hb Hexec Hk Hat Hp Hx.
  assert (sem_inv (Semaphore.permits (Semaphore b)) s) as (Hper & Hh & Hle).
  { revert Hexec. apply BatchFacts.run_invariant; [apply sem_inv_step|].
    unfold sem_inv, in_sections. simpl. split; [done|]. split; [done|]. lia. }
  split; [done|]. split; [done|].
  assert (0 < Semaphore.held (Semaphore (this s))) as Hpos.
  { rewrite Hh. unfold in_sections.
    pose proof (sum_list_with_in call in_section (closes s)
                  (list_elem_of_lookup_2 _ _ _ Hk)) as Hin.
    unfold in_section in Hin at 1. rewrite Hat in Hin. lia. }
  eexists. split.
  { unfold step, close_step. rewrite Hp, Hx, Hk. rewrite decide_True by done.
    unfold Semaphore.Unlock. rewrite bool_decide_eq_true_2 by done.
    reflexivity. }
  simpl. split; [done|]. unfold goto. simpl.
  apply list_lookup_insert_eq. by eapply lookup_lt_Some.
Qed.

Lemma Unlock_never_blocks_witness :
  let call := {| close_at := ClUnlock; drain_at := DrainDone |} in
  Semaphore.held (Semaphore (this after_locked_run))
    = Z.of_nat (in_sections after_locked_run)
  ∧ Z.of_nat (in_sections after_locked_run)
    ≤ Z.max 0 (Semaphore.permits (Semaphore (demo_batch 5)))
  ∧ ∃ s', step (CloseUnlock 0) after_locked_run = Some s'
          ∧ Semaphore.held (Semaphore (this s'))
            = Semaphore.held (Semaphore (this after_locked_run)) - 1
          ∧ closes s' !! 0%nat = Some (set_close_at ClSelect call).
Proof.
  apply (Unlock_never_blocks (demo_batch 5) [] locked_run after_locked_run 0).
  - reflexivity.
  - vm_compute; reflexivity.
  - vm_compute; reflexivity.
  - reflexivity.
  - vm_compute; reflexivity.
  - vm_compute; reflexivity.
Defined.

(** *** Closing [b.Item] *)

Lemma drained_call_step a s s' k call :
  step a s = Some s' →
  closes s !! k = Some call → drain_at call = DrainDone →
  ∃ call', closes s' !! k = Some call' ∧ drain_at call' = DrainDone.
Proof.
  intros H Hk Hd. BatchFacts.step_cases H; unfold goto in *;
    unfold WatchProducer_recv, log_remaining, ReadItems_recv in *;
    repeat case_bool_decide; repeat case_match; simpl in *;
    try (by eexists);
    try (exists call; split; [by apply lookup_app_l_Some|done]);
    match goal with
    | |- context [<[?k0:=?y]> (closes s)] =>
        destruct (decide (k0 = k)) as [->|Hne];
          [simplify_eq;
           first [congruence
                 |eexists; split;
                    [apply list_lookup_insert_eq; by eapply lookup_lt_Some|done]]
          |exists call; split; [by rewrite list_lookup_insert_ne|done]]
    end.
Qed.

Lemma closed_after_drain_step a s s' :
  close_inv s → closed_after_drain s → step a s = Some s' →
  closed_after_drain s'.
Proof.
  intros Hci Hinv H Hcl.
  destruct (Item (this s)) eqn:Hs.
  - (* the channel is closed by this step *)
    BatchFacts.step_cases H; unfold goto in *;
      unfold WatchProducer_recv, log_remaining, ReadItems_recv in *;
      repeat case_bool_decide; repeat case_match; simpl in *;
      try congruence.
    match goal with
    | Hl : closes s !! ?k = Some ?c |- _ =>
        destruct (Hci _ _ Hl) as [_ Hdr];
        exists k; eexists; split;
          [apply list_lookup_insert_eq; by eapply lookup_lt_Some
          |simpl; apply Hdr; congruence]
    end.
  - destruct (Hinv Hs) as (k & call & Hk & Hd).
    destruct (drained_call_step _ _ _ _ _ H Hk Hd) as (call' & ? & ?).
    by exists k, call'.
Qed.

(** X12.  [b.Item] is closed only after a drain has completed.  With
    [b.Item] open at the start, along every schedule the channel is
    closed only if some call of [Close] has received its
    drain-completion signal: [Close] never closes the ingestion channel
    before [CheckRemainingItems] has reported. *)
Theorem Item_closed_only_after_drain b items0 sched s :
  Item b = Open →
  exec sched (start b items0) = Some s →
  Item (this s) = Closed →
  ∃ k call, closes s !! k = Some call ∧ drain_at call = DrainDone.
Proof.
  intros Hb Hexec.
  assert (close_inv s ∧ closed_after_drain s) as [_ H]; [|exact H].
  revert Hexec.
  apply (BatchFacts.run_invariant (λ s, close_inv s ∧ closed_after_drain s)).
  - intros a s1 s2 [Hci Hcd] Hstep. split.
    + by eapply BatchFacts.close_inv_step.
    + by eapply closed_after_drain_step.
  - split; [by intros k call Hk|]. intros Hcl. simpl in Hcl. congruence.
Qed.

Lemma Item_closed_only_after_drain_witness :
  ∃ k call, closes after_close_run !! k = Some call ∧ drain_at call = DrainDone.
Proof.
  apply (Item_closed_only_after_drain (demo_batch 5) [] close_run after_close_run).
  - reflexivity.
  - vm_compute; reflexivity.
  - vm_compute; reflexivity.
Defined.

End BatchInvariants.
